(** * The comment-command dispatch pipeline of the kernel

    A shallow embedding of [src/github/handlers/issue-comment/created.ts]
    (command resolution, repository dispatch, run lookup, completion
    polling, output extraction) and of the worker handler
    [src/handlers/issue/comment_created.ts].

    Conventions of the embedding:
    - a JavaScript string is a [string]: a sequence of code units, here in
      the range U+0000..U+00FF;
    - a JSON object used as a dictionary is a [gmap string string];
    - an [async] function is a function on an explicit [World], which
      records the effects performed so far (console output, remote calls,
      timer suspensions) in chronological order;
    - the remote service is a record of answers, [Remote];
    - the [while] loop of the poller is unrolled by a fuel argument; an
      exhausted fuel is the outcome [Pending] (the promise has not settled
      within that many iterations). *)

From Stdlib Require Import ZArith Ascii String.
From stdpp Require Import base option list gmap strings fin_maps.

Local Open Scope string_scope.
Local Open Scope list_scope.
Local Open Scope nat_scope.

(** ** JavaScript strings *)

Module JS.

Definition codeUnit (c : ascii) : N := N_of_ascii c.

Definition between (lo hi : N) (c : ascii) : bool :=
  ((lo <=? codeUnit c) && (codeUnit c <=? hi))%N.

(** The class [\s]: WhiteSpace and LineTerminator code points below U+0100
    (TAB, LF, VT, FF, CR, SP, NBSP). *)
Definition isWhiteSpace (c : ascii) : bool :=
  between 9 13 c || (codeUnit c =? 32)%N || (codeUnit c =? 160)%N.

(** The class [\d]. *)
Definition isDigit (c : ascii) : bool := between 48 57 c.

(** The class [\w], also the word characters of [\b]: [[A-Za-z0-9_]]. *)
Definition isWordChar (c : ascii) : bool :=
  between 97 122 c || between 65 90 c || isDigit c || (codeUnit c =? 95)%N.

(** Lower-case mapping of one code unit: A-Z and the upper-case letters of
    Latin-1 (U+00C0..U+00DE without the multiplication sign U+00D7). *)
Definition toLowerCaseUnit (c : ascii) : ascii :=
  if between 65 90 c || between 192 214 c || between 216 222 c
  then ascii_of_N (codeUnit c + 32)
  else c.

Fixpoint mapUnits (f : ascii → ascii) (s : string) : string :=
  match s with
  | EmptyString => EmptyString
  | String c s' => String (f c) (mapUnits f s')
  end.

(** [String.prototype.toLowerCase] *)
Definition toLowerCase (s : string) : string := mapUnits toLowerCaseUnit s.

(** [Array.prototype.join] on an array of strings. *)
Fixpoint join (sep : string) (l : list string) : string :=
  match l with
  | [] => ""
  | [x] => x
  | x :: l' => x +:+ sep +:+ join sep l'
  end.

(** [Array.prototype.includes] on an array of strings. *)
Definition includes (l : list string) (x : string) : bool :=
  bool_decide (x ∈ l).

End JS.

(** ** Regular expressions

    The fragment of the pattern language that the handler's patterns are
    written in: pattern characters, [^], [$], [\b], [\B], the class escapes
    [\s \S \w \W \d \D], escaped syntax characters, groups and
    alternation, without flags other than [g].  Quantifiers, character
    classes in brackets and the dot are outside the fragment. *)

Module RegExp.

Inductive ClassEscape := ClassSpace | ClassWord | ClassDigit.

Inductive Regex :=
| Empty
| Char (c : ascii)
| Class (k : ClassEscape) (negated : bool)
| AssertStart
| AssertEnd
| WordBoundary (negated : bool)
| Seq (r1 r2 : Regex)
| Alt (r1 r2 : Regex)
| Group (r : Regex).

(** *** Reading a pattern *)

(** SyntaxCharacter :: one of [^ $ \ . * + ? ( ) [ ] { } |] *)
Definition isSyntaxCharacter (c : ascii) : bool :=
  bool_decide (c ∈ list_ascii_of_string "^$\.*+?()[]{}|").

Definition escape (e : ascii) : option Regex :=
  if Ascii.eqb e "b" then Some (WordBoundary false)
  else if Ascii.eqb e "B" then Some (WordBoundary true)
  else if Ascii.eqb e "s" then Some (Class ClassSpace false)
  else if Ascii.eqb e "S" then Some (Class ClassSpace true)
  else if Ascii.eqb e "w" then Some (Class ClassWord false)
  else if Ascii.eqb e "W" then Some (Class ClassWord true)
  else if Ascii.eqb e "d" then Some (Class ClassDigit false)
  else if Ascii.eqb e "D" then Some (Class ClassDigit true)
  else if isSyntaxCharacter e || Ascii.eqb e "/" then Some (Char e)
  else None.

(** A disjunction under construction: the alternatives already closed
    and the alternative being read. *)
Definition close (alts : option Regex) (cur : Regex) : Regex :=
  match alts with
  | None => cur
  | Some a => Alt a cur
  end.

(** One pass over the pattern text; [stack] holds the enclosing
    disjunctions of the groups that are still open.  [None]: the text is
    not a pattern of the fragment. *)
Fixpoint parse (src : string) (stack : list (option Regex * Regex))
    (alts : option Regex) (cur : Regex) : option Regex :=
  match src with
  | EmptyString =>
      match stack with
      | [] => Some (close alts cur)
      | _ :: _ => None
      end
  | String c rest =>
      if isSyntaxCharacter c then
        if Ascii.eqb c "(" then parse rest ((alts, cur) :: stack) None Empty
        else if Ascii.eqb c ")" then
          match stack with
          | [] => None
          | (alts', cur') :: stack' =>
              parse rest stack' alts' (Seq cur' (Group (close alts cur)))
          end
        else if Ascii.eqb c "|" then parse rest stack (Some (close alts cur)) Empty
        else if Ascii.eqb c "^" then parse rest stack alts (Seq cur AssertStart)
        else if Ascii.eqb c "$" then parse rest stack alts (Seq cur AssertEnd)
        else if Ascii.eqb c "\" then
          match rest with
          | EmptyString => None
          | String e rest' =>
              match escape e with
              | Some t => parse rest' stack alts (Seq cur t)
              | None => None
              end
          end
        else None
      else parse rest stack alts (Seq cur (Char c))
  end.

(** [new RegExp(src)] *)
Definition compile (src : string) : option Regex := parse src [] None Empty.

(** *** Matching *)

Definition classMember (k : ClassEscape) (c : ascii) : bool :=
  match k with
  | ClassSpace => JS.isWhiteSpace c
  | ClassWord => JS.isWordChar c
  | ClassDigit => JS.isDigit c
  end.

(** IsWordChar(e): false outside the input. *)
Definition isWordAt (input : list ascii) (e : nat) : bool :=
  match input !! e with
  | Some c => JS.isWordChar c
  | None => false
  end.

(** The assertion [\b] at end index [e]: IsWordChar(e-1) differs from
    IsWordChar(e). *)
Definition wordBoundaryAt (input : list ascii) (e : nat) : bool :=
  xorb (match e with O => false | S e' => isWordAt input e' end)
       (isWordAt input e).

(** The backtracking matcher: [m r input i k] matches [r] from end index
    [i] and hands every candidate end index to the continuation [k],
    leftmost alternative first. *)
Fixpoint m (r : Regex) (input : list ascii) (i : nat)
    (k : nat → option nat) : option nat :=
  match r with
  | Empty => k i
  | Char c =>
      match input !! i with
      | Some c' => if Ascii.eqb c c' then k (S i) else None
      | None => None
      end
  | Class cl negated =>
      match input !! i with
      | Some c' => if xorb (classMember cl c') negated then k (S i) else None
      | None => None
      end
  | AssertStart => if Nat.eqb i 0 then k i else None
  | AssertEnd => if Nat.eqb i (length input) then k i else None
  | WordBoundary negated =>
      if xorb (wordBoundaryAt input i) negated then k i else None
  | Seq r1 r2 => m r1 input i (λ j, m r2 input j k)
  | Alt r1 r2 =>
      match m r1 input i k with
      | Some e => Some e
      | None => m r2 input i k
      end
  | Group r' => m r' input i k
  end.

(** The search of RegExpBuiltinExec: the first start index from [i] on
    at which the pattern matches, with the end index of the match. *)
Fixpoint scan (fuel : nat) (r : Regex) (input : list ascii) (i : nat)
  : option (nat * nat) :=
  match m r input i Some with
  | Some e => Some (i, e)
  | None =>
      match fuel with
      | O => None
      | S fuel' => scan fuel' r input (S i)
      end
  end.

Definition execFrom (r : Regex) (input : list ascii) (lastIndex : nat)
  : option (nat * nat) :=
  if decide (lastIndex ≤ length input)%nat
  then scan (length input - lastIndex) r input lastIndex
  else None.

(** [regex.exec(body)] for a pattern without flags, reduced to
    [matches[0]]; [None] is [null]. *)
Definition exec (r : Regex) (body : string) : option string :=
  let input := list_ascii_of_string body in
  match execFrom r input 0 with
  | Some (i, e) => Some (string_of_list_ascii (take (e - i) (drop i input)))
  | None => None
  end.

(** [RegExp.prototype[Symbol.replace]] for a pattern with the flag [g] and
    a replacement text without [$]: the matches are taken from left to
    right, [lastIndex] stepping over an empty match. *)
Fixpoint replaceLoop (fuel : nat) (r : Regex) (input replacement : list ascii)
    (lastIndex nextSourcePosition : nat) (accumulatedResult : list ascii)
  : list ascii :=
  match fuel with
  | O => accumulatedResult ++ drop nextSourcePosition input
  | S fuel' =>
      match execFrom r input lastIndex with
      | None => accumulatedResult ++ drop nextSourcePosition input
      | Some (position, e) =>
          let lastIndex' := if Nat.eqb e position then S e else e in
          if decide (nextSourcePosition ≤ position)%nat then
            replaceLoop fuel' r input replacement lastIndex' e
              (accumulatedResult
                 ++ take (position - nextSourcePosition)
                      (drop nextSourcePosition input)
                 ++ replacement)
          else
            replaceLoop fuel' r input replacement lastIndex' nextSourcePosition
              accumulatedResult
      end
  end.

(** [str.replace(regex, replacement)], [regex] global. *)
Definition replace (str : string) (r : Regex) (replacement : string) : string :=
  let input := list_ascii_of_string str in
  string_of_list_ascii
    (replaceLoop (length input + 2) r input (list_ascii_of_string replacement)
       0 0 []).

End RegExp.

(** ** Data model *)

(** [interface WorkflowRun] *)
Record WorkflowRun := {
  run_id : Z;
  run_name : string;
  run_status : string;
}.

(** An element of [jobsData.jobs]. *)
Record Job := { job_id : Z }.

(** An element of [jobDetails.steps]; [outputs] may be absent. *)
Record Step := {
  conclusion : string;
  outputs : option (gmap string string);
}.

(** [Plugin] of the configuration, as far as the handler reads it. *)
Record Plugin := {
  name : string;
  command : string;
  description : string;
  example : string;
}.

Definition helpMenu : Plugin :=
  {| name := "Help Menu"; command := "/help";
     description := "List all available commands."; example := "/help" |}.

Definition userCommands : list Plugin := [ helpMenu ].

(** The fields of the webhook event that [pluginDispatch] reads. *)
Record CommentEvent := {
  comment_body : string;
  issue_number : Z;
  sender_login : string;
  repository_name : string;
  repository_owner_login : string;
}.

Record ClientPayload := {
  cp_body : string;
  cp_issueNumber : Z;
  cp_sender : string;
  cp_repo : string;
  cp_org : string;
}.

(** ** Effects *)

(** Lines written with [console.log] / [console.error]. *)
Inductive LogLine :=
| LogDispatching (eventType : string)
| LogDispatched (eventType : string)
| LogFoundRuns (n : nat) (eventType : string)
| LogOutputFor (eventType : string)
| LogSeparator
| LogOutput (output : gmap string string)
| LogPolling (runID : Z)
| LogRunCompleted (runID : Z)
| LogFetchingLogs (runID : Z)
| LogFetchingJobDetails (jobId : Z)
| LogFetchingSteps (jobId : Z)
| LogFetchingConfiguration (repo : string)
| LogFoundPlugins (n : nat) (repo : string)
| LogFoundHandler (pluginName : string)
| LogNoPlugins.

(** What the handler does to the outside, one constructor per call site.
    [GetRuns] is the request for [.../actions/runs/}], [GetRun] the one
    for [.../actions/runs/${runID}] with the status it was answered. *)
Inductive Event :=
| Console (l : LogLine)
| PostDispatch (urlOwner repo eventType : string) (payload : ClientPayload)
| GetRuns (owner repo : string)
| GetRun (owner repo : string) (runID : Z) (observed : string)
| Sleep (ms : Z)
| GetJobs (owner repo : string) (runID : Z)
| GetJob (owner repo : string) (jobId : Z).

(** The answers of the remote service.  [runStatus o r id n] is the
    [status] field of the answer to the [n]-th status read (from 0).
    Every answer is a parsed body that holds the field the handler reads
    ([workflow_runs], [status], [jobs], [steps]) with elements of the
    expected shape, and output values are strings; an answer without the
    field, on which the handler would throw, is not among them. *)
Record Remote := {
  workflow_runs : string → string → list WorkflowRun;
  runStatus : string → string → Z → nat → string;
  jobs : string → string → Z → list Job;
  steps : string → string → Z → list Step;
}.

Record World := {
  statusReads : nat;
  trace : list Event;
}.

Definition initial : World := {| statusReads := 0; trace := [] |}.

Inductive Exn :=
| TypeError (msg : string).

Inductive Outcome (A : Type) :=
| Returned (a : A)
| Thrown (e : Exn)
| Pending.
Arguments Returned {A} a.
Arguments Thrown {A} e.
Arguments Pending {A}.

Definition Async (A : Type) : Type := World → Outcome A * World.

Definition ret {A} (a : A) : Async A := λ w, (Returned a, w).

Definition throw {A} (e : Exn) : Async A := λ w, (Thrown e, w).

Definition bind {A B} (m : Async A) (k : A → Async B) : Async B :=
  λ w, match m w with
       | (Returned a, w') => k a w'
       | (Thrown e, w') => (Thrown e, w')
       | (Pending, w') => (Pending, w')
       end.

Notation "x <- m ;; k" := (bind m (λ x, k))
  (at level 100, m at next level, right associativity).
Notation "m ;;; k" := (bind m (λ _, k))
  (at level 100, right associativity).

Definition emit (e : Event) : Async unit :=
  λ w, (Returned tt, {| statusReads := statusReads w; trace := trace w ++ [e] |}).

Definition console_log (l : LogLine) : Async unit := emit (Console l).

Definition setTimeout (ms : Z) : Async unit := emit (Sleep ms).

Section Pipeline.

Variable api : Remote.

(** [fetch(.../actions/runs/${runID})] followed by [response.json()]. *)
Definition fetchRun (owner repo : string) (runID : Z) : Async string :=
  λ w, let s := runStatus api owner repo runID (statusReads w) in
       (Returned s,
        {| statusReads := S (statusReads w);
           trace := trace w ++ [GetRun owner repo runID s] |}).

Definition fetchJobs (owner repo : string) (runID : Z) : Async (list Job) :=
  emit (GetJobs owner repo runID) ;;; ret (jobs api owner repo runID).

Definition fetchJob (owner repo : string) (jobId : Z) : Async (list Step) :=
  emit (GetJob owner repo jobId) ;;; ret (steps api owner repo jobId).

Definition fetchRuns (owner repo : string) : Async (list WorkflowRun) :=
  emit (GetRuns owner repo) ;;; ret (workflow_runs api owner repo).

(** *** Output extraction *)

(** [acc[key] = value] on the accumulator of the reduce, which starts as
    the object literal [{}] and so inherits from [Object.prototype].  For
    every key but one the assignment creates or overwrites an own
    property.  The key ["__proto__"] is an accessor of [Object.prototype]:
    the assignment calls its setter, which ignores a value that is neither
    an object nor null (here a string) and stores nothing. *)
Definition assign (acc : gmap string string) (key value : string)
  : gmap string string :=
  if decide (key = "__proto__") then acc else <[key := value]> acc.

(** [Object.keys(step.outputs).forEach((key) => acc[key] = step.outputs[key])];
    the keys of one object are distinct, in the order of [map_to_list].
    A parsed answer can hold ["__proto__"] as an own key, which
    [Object.keys] lists like any other. *)
Definition copyOutputs (outs acc : gmap string string) : gmap string string :=
  fold_left (λ acc kv, assign acc kv.1 kv.2) (map_to_list outs) acc.

(** The callback given to [jobDetails.steps.reduce]. *)
Definition reducer (acc : gmap string string) (step : Step) : gmap string string :=
  match outputs step with
  | Some outs =>
      if decide (conclusion step = "success") then copyOutputs outs acc else acc
  | None => acc
  end.

Definition fetchRunLogs (runID : Z) (owner repo : string)
  : Async (gmap string string) :=
  console_log (LogFetchingLogs runID) ;;;
  jobsData <- fetchJobs owner repo runID ;;
  match jobsData !! 0%nat with
  | None => throw (TypeError "Cannot read properties of undefined (reading 'id')")
  | Some job =>
      let jobId := job_id job in
      console_log (LogFetchingJobDetails jobId) ;;;
      jobDetails <- fetchJob owner repo jobId ;;
      console_log (LogFetchingSteps jobId) ;;;
      ret (fold_left reducer jobDetails ∅)
  end.

(** *** Run lookup *)

Definition fetchInvokedPluginRunner (owner repo eventType : string)
  : Async (list WorkflowRun) :=
  data <- fetchRuns owner repo ;;
  ret (take 5 (filter (λ run, run_name run = eventType) data)).

Definition fetchInProgressRunsBatch5 (owner repo eventType : string)
  : Async (list WorkflowRun) :=
  runs <- fetchInvokedPluginRunner owner repo eventType ;;
  ret (filter (λ run, run_status run = "in_progress") runs).

Definition fetchUncompletedRunsBatch5 (owner repo eventType : string)
  : Async (list WorkflowRun) :=
  runs <- fetchInvokedPluginRunner owner repo eventType ;;
  ret (filter (λ run, run_status run ≠ "completed") runs).

(** *** Completion polling *)

Definition pending {A} : Async A := λ w, (Pending, w).

(** [while (!isCompleted) { ... }], at most [fuel] iterations. *)
Fixpoint pollLoop (fuel : nat) (isCompleted : bool) (runID : Z)
    (owner repo : string) : Async unit :=
  if isCompleted then ret tt
  else
    match fuel with
    | O => pending
    | S fuel' =>
        console_log (LogPolling runID) ;;;
        status <- fetchRun owner repo runID ;;
        if decide (status = "completed") then
          console_log (LogRunCompleted runID) ;;;
          pollLoop fuel' true runID owner repo
        else
          setTimeout 15000 ;;;
          pollLoop fuel' false runID owner repo
    end.

Definition pollInProgressRunTillCompletion (fuel : nat) (runID : Z)
    (owner repo : string) : Async (gmap string string) :=
  pollLoop fuel false runID owner repo ;;;
  fetchRunLogs runID owner repo.

(** *** Dispatch *)

(** The pattern literal of [plugin.name.toLowerCase().replace(/\s/g, "-")]. *)
Definition whitespace : RegExp.Regex := RegExp.Class RegExp.ClassSpace false.

Definition dispatchEventType (pluginName : string) : string :=
  RegExp.replace (JS.toLowerCase pluginName) whitespace "-".

(** [`${owner}`] for the object [event.payload.repository.owner]. *)
Definition objectToString : string := "[object Object]".

(** The result is [Some "No runs found"] or [undefined] ([None]). *)
Definition pluginDispatch (fuel : nat) (plugin : Plugin) (event : CommentEvent)
  : Async (option string) :=
  let owner_login := repository_owner_login event in
  let repo := repository_name event in
  let clientPayload :=
    {| cp_body := comment_body event;
       cp_issueNumber := issue_number event;
       cp_sender := sender_login event;
       cp_repo := repo;
       cp_org := owner_login |} in
  let eventType := dispatchEventType (name plugin) in
  console_log (LogDispatching eventType) ;;;
  emit (PostDispatch objectToString repo eventType clientPayload) ;;;
  console_log (LogDispatched eventType) ;;;
  runs <- fetchInProgressRunsBatch5 owner_login repo eventType ;;
  if decide (length runs = 0%nat) then ret (Some "No runs found")
  else
    console_log (LogFoundRuns (length runs) eventType) ;;;
    match runs !! 0%nat with
    | None => throw (TypeError "Cannot read properties of undefined (reading 'id')")
    | Some run =>
        output <- pollInProgressRunTillCompletion fuel (run_id run) owner_login repo ;;
        console_log (LogOutputFor eventType) ;;;
        console_log LogSeparator ;;;
        console_log (LogOutput output) ;;;
        ret None
    end.

(** *** Command resolution *)

(** The end of [commentParser], from [if (matches)] on; [matches] is
    reduced to [matches[0]]. *)
Definition chooseCommand (pluginCommands : list string)
    (matches : option string) : option string :=
  match matches with
  | Some command =>
      if JS.includes pluginCommands command then Some command else None
  | None => None
  end.

(** [null | string] is [option string]; the outer [None] stands for a
    pattern text outside the fragment of [RegExp]. *)
Definition commentParser (body : string) (plugins : list Plugin)
  : option (option string) :=
  let pluginCommands := map command plugins in
  regex ← RegExp.compile ("^(" +:+ JS.join "|" pluginCommands +:+ ")\b");
  Some (chooseCommand pluginCommands (RegExp.exec regex body)).

(** The handler that [issueCommentCreated] selects for a comment body:
    [commentParser], the test [!command], then [plugins.find]. *)
Definition commandHandler (body : string) (plugins : list Plugin)
  : option (option Plugin) :=
  command' ← commentParser body plugins;
  Some
    match command' with
    | None => None
    | Some c =>
        if decide (c = "") then None
        else List.find (λ cmd, bool_decide (command cmd = c)) plugins
    end.

(** The body of [issueCommentCreated] after its first statement,
    [const configuration = await getUbiquiBotConfig(event)]: that function
    is outside these sources, and whatever it fetches happens before the
    effects recorded here.  Its answer is the argument [configured], the
    value of [configuration.plugins?.ISSUE_COMMENT_CREATED]. *)
Definition issueCommentCreated (fuel : nat) (configured : option (list Plugin))
    (event : CommentEvent) : option (Async unit) :=
  match configured with
  | None =>
      Some (console_log (LogFetchingConfiguration (repository_name event)) ;;;
            console_log LogNoPlugins)
  | Some plugins =>
      handler ← commandHandler (comment_body event) plugins;
      Some
        (console_log (LogFetchingConfiguration (repository_name event)) ;;;
         console_log (LogFoundPlugins (length plugins) (repository_name event)) ;;;
         match handler with
         | None => ret tt
         | Some commandHandler' =>
             console_log (LogFoundHandler (name commandHandler')) ;;;
             pluginDispatch fuel commandHandler' event ;;;
             ret tt
         end)
  end.

End Pipeline.

(** ** The worker's comment handler *)

Module Worker.

Record Context := {
  comment_user_type : string;
  repository_owner_login : string;
  repository_name : string;
  issue_number : Z;
}.

Inductive Effect :=
| ConsoleLog (msg : string)
| CreateComment (owner repo : string) (issue_number : Z) (body : string).

(** The effects of one call, oldest first, added to those before it. *)
Definition handleIssueCommentCreated (event : Context) (done : list Effect)
  : list Effect :=
  if decide (comment_user_type event = "Bot") then
    done ++ [ConsoleLog "Skipping bot comment"]
  else
    done ++ [CreateComment (repository_owner_login event) (repository_name event)
               (issue_number event) "Hello from the worker!"].

Definition isCreateComment (e : Effect) : bool :=
  match e with
  | CreateComment _ _ _ _ => true
  | ConsoleLog _ => false
  end.

End Worker.

(** ** The specification's wording, as definitions *)

(** Output extraction: fold the steps in declared order; a step whose
    conclusion is "success" and whose outputs are present adds all its
    pairs, a later value replacing an earlier one. *)
Definition mergeSuccessful (l : list Step) : gmap string string :=
  fold_left
    (λ acc step,
       match outputs step with
       | Some outs =>
           if decide (conclusion step = "success") then outs ∪ acc else acc
       | None => acc
       end)
    l ∅.

(** The step is successful and its outputs bind [k] to [v]. *)
Definition contributes (step : Step) (k v : string) : Prop :=
  conclusion step = "success"
  ∧ ∃ outs, outputs step = Some outs ∧ outs !! k = Some v.

Definition exampleSteps : list Step :=
  [ {| conclusion := "success"; outputs := Some {[ "a" := "1" ]} |};
    {| conclusion := "failure"; outputs := Some {[ "a" := "2" ]} |};
    {| conclusion := "success"; outputs := Some {[ "a" := "3"; "b" := "4" ]} |} ].

(** One successful step whose parsed outputs hold the own key
    "__proto__" beside the key "a". *)
Definition protoSteps : list Step :=
  [ {| conclusion := "success";
       outputs := Some {[ "__proto__" := "x"; "a" := "1" ]} |} ].

(** A remote whose completed run has one job, with the steps of
    [protoSteps]. *)
Definition protoRemote : Remote :=
  {| workflow_runs := λ _ _,
       [ {| run_id := 7; run_name := "help-menu"; run_status := "in_progress" |} ];
     runStatus := λ _ _ _ _, "completed";
     jobs := λ _ _ _, [ {| job_id := 11 |} ];
     steps := λ _ _ _, protoSteps |}.

(** A remote whose run has completed and lists no job. *)
Definition remoteWithoutJobs : Remote :=
  {| workflow_runs := λ _ _,
       [ {| run_id := 7; run_name := "help-menu"; run_status := "in_progress" |} ];
     runStatus := λ _ _ _ _, "completed";
     jobs := λ _ _ _, [];
     steps := λ _ _ _, [] |}.

Definition helpComment : CommentEvent :=
  {| comment_body := "/help";
     issue_number := 1;
     sender_login := "alice";
     repository_name := "kernel";
     repository_owner_login := "ubiquity" |}.


Definition isConsole (e : Event) : bool :=
  match e with
  | Console _ => true
  | _ => false
  end.

(** A trace without its console lines. *)
Definition remoteActions (t : list Event) : list Event :=
  filter (λ e, isConsole e = false) t.

(** The effects that only the poller and the extractor perform. *)
Definition isPollOrExtract (e : Event) : bool :=
  match e with
  | GetRun _ _ _ _ | Sleep _ | GetJobs _ _ _ | GetJob _ _ _ => true
  | Console (LogPolling _) | Console (LogRunCompleted _)
  | Console (LogFetchingLogs _) | Console (LogFetchingJobDetails _)
  | Console (LogFetchingSteps _) => true
  | _ => false
  end.

(** The world after one iteration of the poller that read a status other
    than "completed", and after the iteration that read "completed". *)
Definition waited (api : Remote) (runID : Z) (owner repo : string) (w : World)
  : World :=
  {| statusReads := S (statusReads w);
     trace := trace w ++
       [ Console (LogPolling runID);
         GetRun owner repo runID (runStatus api owner repo runID (statusReads w));
         Sleep 15000 ] |}.

Definition completed (runID : Z) (owner repo : string) (w : World) : World :=
  {| statusReads := S (statusReads w);
     trace := trace w ++
       [ Console (LogPolling runID);
         GetRun owner repo runID "completed";
         Console (LogRunCompleted runID) ] |}.


Definition statusScript : list string :=
  [ "queued"; "in_progress"; "in_progress"; "completed" ].

(** A remote that answers the status reads from a script, and
    "completed" after its end. *)
Definition scriptedRemote (script : list string) : Remote :=
  {| workflow_runs := λ _ _, [];
     runStatus := λ _ _ _ n, nth n script "completed";
     jobs := λ _ _ _, [];
     steps := λ _ _ _, [] |}.

(** The event type in the specification's words: the lower-cased name
    with every space (U+0020) replaced by a hyphen. *)
Definition hyphenateSpaces (pluginName : string) : string :=
  JS.mapUnits (λ c, if Ascii.eqb c " " then "-"%char else c)
    (JS.toLowerCase pluginName).

(** The same with every white-space code unit of [\s] replaced. *)
Definition hyphenate (c : ascii) : ascii :=
  if JS.isWhiteSpace c then "-"%char else c.

Definition hyphenateWhiteSpace (pluginName : string) : string :=
  JS.mapUnits hyphenate (JS.toLowerCase pluginName).

Fixpoint onlySpaces (s : string) : bool :=
  match s with
  | EmptyString => true
  | String c s' => (negb (JS.isWhiteSpace c) || Ascii.eqb c " ") && onlySpaces s'
  end.

Definition tab : string := String (ascii_of_nat 9) "".

(** A match string without syntax characters: a pattern that matches
    itself. *)
Fixpoint plain (s : string) : bool :=
  match s with
  | EmptyString => true
  | String c s' => negb (RegExp.isSyntaxCharacter c) && plain s'
  end.

(** The pattern characters of [s] after the terms [cur]. *)
Fixpoint literalAfter (cur : RegExp.Regex) (s : string) : RegExp.Regex :=
  match s with
  | EmptyString => cur
  | String c s' => literalAfter (RegExp.Seq cur (RegExp.Char c)) s'
  end.

Definition literal (s : string) : RegExp.Regex := literalAfter RegExp.Empty s.

(** The disjunction between the parentheses of the resolver's pattern. *)
Definition alternatives (cmds : list string) : RegExp.Regex :=
  match cmds with
  | [] => RegExp.Empty
  | c :: cs => fold_left (λ a c', RegExp.Alt a (literal c')) cs (literal c)
  end.

(** The pattern [^(c1|...|cn)\b] for plain match strings. *)
Definition resolverPattern (cmds : list string) : RegExp.Regex :=
  RegExp.Seq
    (RegExp.Seq (RegExp.Seq RegExp.Empty RegExp.AssertStart)
       (RegExp.Group (alternatives cmds)))
    (RegExp.WordBoundary false).

(** The code units of [s] stand in [input] from index [j] on. *)
Fixpoint litAt (s : string) (input : list ascii) (j : nat) : bool :=
  match s with
  | EmptyString => true
  | String c s' =>
      match input !! j with
      | Some c' => Ascii.eqb c c' && litAt s' input (S j)
      | None => false
      end
  end.

(** The match string [c] stands at the start of [body] and ends at a
    word boundary of [body]. *)
Definition matchesAtStart (c body : string) : bool :=
  String.prefix c body
  && RegExp.wordBoundaryAt (list_ascii_of_string body) (String.length c).

Definition research : Plugin :=
  {| name := "Research"; command := "/ask\s";
     description := "Ask a question."; example := "/ask <question>" |}.

(** ** Further definitions used in statements *)

(** The list that [fetchInvokedPluginRunner] returns, and what the two
    filters on it keep. *)
Definition recentRuns (api : Remote) (owner repo eventType : string)
  : list WorkflowRun :=
  take 5 (filter (λ run, run_name run = eventType) (workflow_runs api owner repo)).

Definition inProgressRuns (api : Remote) (owner repo eventType : string)
  : list WorkflowRun :=
  filter (λ run, run_status run = "in_progress")
    (recentRuns api owner repo eventType).

Definition isDispatch (e : Event) : bool :=
  match e with
  | PostDispatch _ _ _ _ => true
  | _ => false
  end.

(** The effects of the poller's loop on one run. *)
Definition pollEffect (owner repo : string) (runID : Z) (e : Event) : Prop :=
  match e with
  | Console (LogPolling id) | Console (LogRunCompleted id) => id = runID
  | GetRun o r id _ => o = owner ∧ r = repo ∧ id = runID
  | Sleep ms => ms = 15000%Z
  | _ => False
  end.

(** The effects of [fetchRunLogs] on one run. *)
Definition extractEffect (owner repo : string) (runID : Z) (e : Event) : Prop :=
  match e with
  | Console (LogFetchingLogs id) => id = runID
  | GetJobs o r id => o = owner ∧ r = repo ∧ id = runID
  | GetJob o r _ => o = owner ∧ r = repo
  | Console (LogFetchingJobDetails _) | Console (LogFetchingSteps _) => True
  | _ => False
  end.

(** The console lines of [pluginDispatch] after the lookup. *)
Definition reportEffect (e : Event) : Prop :=
  match e with
  | Console (LogFoundRuns _ _) | Console (LogOutputFor _)
  | Console LogSeparator | Console (LogOutput _) => True
  | _ => False
  end.

(** What [pluginDispatch] does before it looks at the runs. *)
Definition dispatchEffects (plugin : Plugin) (event : CommentEvent) : list Event :=
  [ Console (LogDispatching (dispatchEventType (name plugin)));
    PostDispatch objectToString (repository_name event)
      (dispatchEventType (name plugin))
      {| cp_body := comment_body event;
         cp_issueNumber := issue_number event;
         cp_sender := sender_login event;
         cp_repo := repository_name event;
         cp_org := repository_owner_login event |};
    Console (LogDispatched (dispatchEventType (name plugin)));
    GetRuns (repository_owner_login event) (repository_name event) ].

(** A remote with one run in progress for "help-menu", which completes at
    the fourth status read and has one job with one successful step. *)
Definition helpRemote : Remote :=
  {| workflow_runs := λ _ _,
       [ {| run_id := 7; run_name := "help-menu"; run_status := "in_progress" |};
         {| run_id := 5; run_name := "help-menu"; run_status := "completed" |} ];
     runStatus := λ _ _ _ n, nth n statusScript "completed";
     jobs := λ _ _ _, [ {| job_id := 11 |} ];
     steps := λ _ _ _,
       [ {| conclusion := "success"; outputs := Some {[ "answer" := "42" ]} |} ] |}.

(** A remote whose run never completes. *)
Definition stuckRemote : Remote :=
  {| workflow_runs := λ _ _,
       [ {| run_id := 7; run_name := "help-menu"; run_status := "in_progress" |} ];
     runStatus := λ _ _ _ _, "in_progress";
     jobs := λ _ _ _, [];
     steps := λ _ _ _, [] |}.

(** The keys that the successful steps of a list output. *)
Definition successfulKeys (l : list Step) : gset string :=
  ⋃ (map (λ s, match outputs s with
               | Some outs =>
                   if decide (conclusion s = "success") then dom outs else ∅
               | None => ∅
               end) l).

(** ** More of JavaScript's strings *)

Module JSText.

(** [s.slice(start)], [0 <= start]. *)
Fixpoint sliceFrom (s : string) (start : nat) : string :=
  match start, s with
  | O, _ => s
  | S n, String _ s' => sliceFrom s' n
  | S _, EmptyString => EmptyString
  end.

(** [s.slice(0, end)], [0 <= end]. *)
Fixpoint sliceTo (s : string) (end' : nat) : string :=
  match end', s with
  | S n, String c s' => String c (sliceTo s' n)
  | _, _ => EmptyString
  end.

(** [s.slice(0, -1)] *)
Definition dropLast (s : string) : string := sliceTo s (String.length s - 1).

(** The search of [s.indexOf(search, position)]: [skip] code units are
    still to be passed over, [i] is the index of the head of [s]; a
    position behind the end is the end.  [None] is [-1]. *)
Fixpoint indexOfLoop (search s : string) (skip i : nat) : option nat :=
  match s with
  | EmptyString => if String.prefix search "" then Some i else None
  | String _ s' =>
      match skip with
      | S skip' => indexOfLoop search s' skip' (S i)
      | O => if String.prefix search s then Some i
             else indexOfLoop search s' 0 (S i)
      end
  end.

Definition indexOf (s search : string) (position : nat) : option nat :=
  indexOfLoop search s position 0.

(** [s.includes(search)] *)
Definition includes (s search : string) : bool :=
  match indexOf s search 0 with
  | Some _ => true
  | None => false
  end.

(** [s.endsWith(suffix)] *)
Definition endsWith (s suffix : string) : bool :=
  (String.length suffix <=? String.length s)
  && String.eqb (sliceFrom s (String.length s - String.length suffix)) suffix.

(** The loop of [s.split(sep)] for a separator that is not empty: [cur]
    is the piece being read, [skip] the code units of a separator just
    found that are still to be passed over. *)
Fixpoint splitLoop (sep : string) (skip : nat) (cur s : string) : list string :=
  match s with
  | EmptyString => [cur]
  | String c s' =>
      match skip with
      | S skip' => splitLoop sep skip' cur s'
      | O =>
          if String.prefix sep s
          then cur :: splitLoop sep (String.length sep - 1) "" s'
          else splitLoop sep 0 (cur +:+ String c "") s'
      end
  end.

Fixpoint units (s : string) : list string :=
  match s with
  | EmptyString => []
  | String c s' => String c "" :: units s'
  end.

(** [s.split(sep)]; the empty separator splits between code units. *)
Definition split (s sep : string) : list string :=
  match sep with
  | EmptyString => units s
  | String _ _ => splitLoop sep 0 "" s
  end.

(** Upper-case mapping of one code unit; [None] for the three code units
    below U+0100 whose mapping leaves that range or is longer than one
    unit (U+00B5, U+00DF, U+00FF). *)
Definition toUpperCaseUnit (c : ascii) : option ascii :=
  if JS.between 97 122 c || JS.between 224 246 c || JS.between 248 254 c
  then Some (ascii_of_N (JS.codeUnit c - 32))
  else if (JS.codeUnit c =? 181)%N || (JS.codeUnit c =? 223)%N
          || (JS.codeUnit c =? 255)%N
  then None
  else Some c.

(** [s.toUpperCase()], where every unit has a mapping in the range. *)
Fixpoint toUpperCase (s : string) : option string :=
  match s with
  | EmptyString => Some EmptyString
  | String c s' =>
      c' ← toUpperCaseUnit c;
      s'' ← toUpperCase s';
      Some (String c' s'')
  end.

End JSText.

(** ** The help menu's text helpers *)

(** The loop of [breakLongString]; [None]: more than [fuel] iterations. *)
Fixpoint breakLoop (fuel : nat) (maxLen : nat) (str : string)
    (newStr : list string) : option (list string) :=
  match JSText.indexOf str " " maxLen with
  | Some spaceIndex =>
      if maxLen <? String.length str then
        match fuel with
        | O => None
        | S fuel' =>
            breakLoop fuel' maxLen (JSText.sliceFrom str (S spaceIndex))
              (newStr ++ [JSText.sliceTo str spaceIndex])
        end
      else Some (newStr ++ [str])
  | None => Some (newStr ++ [str])
  end.

(** The lines that [breakLongString] joins. *)
Definition brokenLines (str : string) (maxLen : nat) : option (list string) :=
  breakLoop (String.length str) maxLen str [].

Definition breakLongString (str : string) (maxLen : nat) : option string :=
  JS.join "<br>" <$> brokenLines str maxLen.

(** The array [sentences] of [breakSentences]. *)
Definition sentencesOf (str : string) : list string :=
  if JSText.endsWith str "."
  then JSText.split (JSText.dropLast str) ". "
  else JSText.split str ". ".

Definition breakSentences (str : string) : string :=
  if length (sentencesOf str) <=? 1 then str
  else JS.join ".<br><br>" (sentencesOf str).

(** ** The table of webhook event names *)

(** The pattern literal of [cur.replace(/\./g, "_")]. *)
Definition dot : RegExp.Regex := RegExp.Char ".".

(** [cur.replace(/\./g, "_").toUpperCase()] *)
Definition eventKey (cur : string) : option string :=
  JSText.toUpperCase (RegExp.replace cur dot "_").

(** [emitterEventNames.reduce((acc, cur) => { ...; acc[upper] = cur; return acc }, {})];
    the list [emitterEventNames] of the webhooks library is the argument. *)
Definition githubWebhookEvents (emitterEventNames : list string)
  : option (gmap string string) :=
  fold_left
    (λ acc cur,
       acc' ← acc;
       upper ← eventKey cur;
       Some (<[upper := cur]> acc'))
    emitterEventNames (Some ∅).

Definition underscore (c : ascii) : ascii :=
  if Ascii.eqb "." c then "_"%char else c.

(** ** The name of the worker *)

(** [workerUrl.includes("localhost") ? "localhost"
     : workerUrl.split("//")[1].split(".")[0]], for the origin
    [workerUrl] of [inputs.ref]. *)
Definition workerName (workerUrl : string) : Outcome string :=
  if JSText.includes workerUrl "localhost" then Returned "localhost"
  else
    match JSText.split workerUrl "//" !! 1 with
    | None =>
        Thrown (TypeError "Cannot read properties of undefined (reading 'split')")
    | Some host =>
        match JSText.split host "." !! 0 with
        | Some label => Returned label
        | None => Returned "undefined"
        end
    end.

(** The code unit [c] does not occur in [s]. *)
Fixpoint without (c : ascii) (s : string) : bool :=
  match s with
  | EmptyString => true
  | String a s' => negb (Ascii.eqb c a) && without c s'
  end.

(** Unfolds the plumbing of [Async] and runs what is determined. *)
Ltac run_async :=
  unfold console_log, setTimeout, emit, bind, ret, throw, pending; simpl.

(** ** Output extraction *)

Section Extraction.

Implicit Types (acc outs : gmap string string) (l : list (string * string)).

Lemma fold_assign_union l acc :
  NoDup l.*1 →
  fold_left (λ acc kv, assign acc kv.1 kv.2) l acc
  = delete "__proto__" (list_to_map l) ∪ acc.
Proof.
  revert acc. induction l as [|[k v] l IH]; intros acc Hnd; simpl.
  - by rewrite delete_empty, (left_id_L ∅ (∪)).
  - apply NoDup_cons in Hnd as [Hk Hnd].
    rewrite IH by done. unfold assign. simpl. case_decide as Hproto.
    + subst k. by rewrite delete_insert_eq.
    + rewrite delete_insert_ne by done.
      rewrite <-insert_union_r.
      * by rewrite insert_union_l.
      * rewrite lookup_delete_ne by done.
        by apply not_elem_of_list_to_map_1.
Qed.

(** One successful step: every pair of its outputs lands in the
    accumulator, except a pair under ["__proto__"]. *)
Lemma copyOutputs_union outs acc :
  copyOutputs outs acc = delete "__proto__" outs ∪ acc.
Proof.
  unfold copyOutputs.
  rewrite fold_assign_union by apply NoDup_fst_map_to_list.
  by rewrite list_to_map_to_list.
Qed.

Lemma copyOutputs_delete outs acc :
  copyOutputs outs (delete "__proto__" acc)
  = delete "__proto__" (outs ∪ acc).
Proof. by rewrite copyOutputs_union, delete_union. Qed.

Lemma reduce_delete (l : list Step) acc :
  fold_left reducer l (delete "__proto__" acc)
  = delete "__proto__"
      (fold_left (λ acc step,
         match outputs step with
         | Some outs =>
             if decide (conclusion step = "success") then outs ∪ acc else acc
         | None => acc
         end) l acc).
Proof.
  revert acc. induction l as [|step l IH]; intros acc; [done|]. simpl.
  rewrite <-IH. f_equal. unfold reducer.
  destruct (outputs step); [|done].
  case_decide; [apply copyOutputs_delete | done].
Qed.

(** The reduce of the source is the merge of the successful steps'
    outputs, less the key ["__proto__"]. *)
Lemma reduce_mergeSuccessful (l : list Step) :
  fold_left reducer l ∅ = delete "__proto__" (mergeSuccessful l).
Proof.
  unfold mergeSuccessful. rewrite <-reduce_delete. by rewrite delete_empty.
Qed.

End Extraction.

Lemma mergeSuccessful_snoc (l : list Step) (s : Step) :
  mergeSuccessful (l ++ [s])
  = match outputs s with
    | Some outs =>
        if decide (conclusion s = "success") then outs ∪ mergeSuccessful l
        else mergeSuccessful l
    | None => mergeSuccessful l
    end.
Proof. unfold mergeSuccessful. by rewrite fold_left_app. Qed.

Lemma split_snoc (l l1 l2 : list Step) (s step : Step) :
  l ++ [s] = l1 ++ step :: l2 →
  (l2 = [] ∧ l = l1 ∧ s = step)
  ∨ ∃ l2', l2 = l2' ++ [s] ∧ l = l1 ++ step :: l2'.
Proof.
  destruct l2 as [|x l2 _] using rev_ind; intros Heq.
  - left. apply app_inj_tail in Heq as [-> ->]. done.
  - right. exists l2.
    rewrite app_comm_cons, (assoc_L (++)) in Heq.
    by apply app_inj_tail in Heq as [-> ->].
Qed.

(** Last write wins: [k] is bound to the value of the last step that
    contributes a value for it. *)
Lemma mergeSuccessful_lookup (l : list Step) (k v : string) :
  mergeSuccessful l !! k = Some v ↔
  ∃ l1 step l2,
    l = l1 ++ step :: l2
    ∧ contributes step k v
    ∧ Forall (λ later, ∀ v', ¬ contributes later k v') l2.
Proof.
  induction l as [|s l IH] using rev_ind.
  { split; [done|]. intros (l1 & step & l2 & Hl & _). by destruct l1. }
  rewrite mergeSuccessful_snoc.
  destruct (decide (∃ v0, (if decide (conclusion s = "success")
                           then outputs s ≫= (.!! k) else None) = Some v0))
    as [[v0 Hv0]|Hsilent].
  - case_decide as Hsucc; [|done].
    destruct (outputs s) as [outs|] eqn:Houts; [|done]. simpl in Hv0.
    rewrite (lookup_union_Some_l _ _ _ _ Hv0). split.
    + intros [= <-]. exists l, s, [].
      split; [done|split; [|done]]. split; [done|]. by exists outs.
    + intros (l1 & step & l2 & Hl & Hstep & Hlater).
      apply split_snoc in Hl as [(_ & _ & <-)|(l2' & -> & _)].
      * destruct Hstep as (_ & outs' & Houts' & Hk). congruence.
      * rewrite Forall_app, Forall_singleton in Hlater.
        destruct Hlater as [_ Hs]. destruct (Hs v0). split; [done|].
        by exists outs.
  - assert (∀ v', ¬ contributes s k v') as Hs.
    { intros v' (Hsucc & outs & Houts & Hk). apply Hsilent. exists v'.
      rewrite decide_True by done. by rewrite Houts. }
    assert (match outputs s with
            | Some outs =>
                if decide (conclusion s = "success")
                then outs ∪ mergeSuccessful l else mergeSuccessful l
            | None => mergeSuccessful l
            end !! k = mergeSuccessful l !! k) as ->.
    { destruct (outputs s) as [outs|] eqn:Houts; [|done].
      case_decide as Hsucc; [|done].
      apply lookup_union_r. destruct (outs !! k) as [v'|] eqn:Hk; [|done].
      destruct (Hs v'). split; [done|]. by exists outs. }
    rewrite IH. split.
    + intros (l1 & step & l2 & -> & Hstep & Hlater).
      exists l1, step, (l2 ++ [s]).
      rewrite app_comm_cons, (assoc_L (++)). split; [done|split; [done|]].
      rewrite Forall_app, Forall_singleton. done.
    + intros (l1 & step & l2 & Hl & Hstep & Hlater).
      apply split_snoc in Hl as [(_ & _ & <-)|(l2' & -> & ->)].
      * by destruct (Hs v).
      * rewrite Forall_app in Hlater. destruct Hlater as [Hlater _].
        by exists l1, step, l2'.
Qed.

Lemma mergeSuccessful_example :
  mergeSuccessful exampleSteps = {[ "a" := "3"; "b" := "4" ]}.
Proof.
  apply map_eq. intros k. by vm_compute.
Qed.

(** C1. The extraction does not add every pair of a successful step.
    On a completed run whose only job has the single successful step with
    outputs {"__proto__": "x", "a": "1"}, [fetchRunLogs] returns {a: "1"},
    while the merge of the successful steps' outputs binds "__proto__" to
    "x" as well: the assignment [acc[key] = ...] on the [{}] accumulator
    stores nothing under that key. *)
Theorem fetchRunLogs_drops_proto_key :
  (fetchRunLogs protoRemote 7 "ubiquity" "kernel" initial).1
    = Returned {[ "a" := "1" ]}
  ∧ mergeSuccessful protoSteps = {[ "__proto__" := "x"; "a" := "1" ]}
  ∧ (fetchRunLogs protoRemote 7 "ubiquity" "kernel" initial).1
    ≠ Returned (mergeSuccessful protoSteps).
Proof.
  assert (fold_left reducer protoSteps ∅
          = ({[ "a" := "1" ]} : gmap string string)) as Hcode.
  { apply map_eq. intros k. by vm_compute. }
  assert (mergeSuccessful protoSteps
          = ({[ "__proto__" := "x"; "a" := "1" ]} : gmap string string)) as Hspec.
  { apply map_eq. intros k. by vm_compute. }
  assert ((fetchRunLogs protoRemote 7 "ubiquity" "kernel" initial).1
          = Returned (fold_left reducer protoSteps ∅)) as Hrun by reflexivity.
  split; [by rewrite Hrun, Hcode|]. split; [done|].
  rewrite Hrun, Hcode, Hspec. intros Heq.
  assert (({[ "a" := "1" ]} : gmap string string) !! "__proto__"
          = ({[ "__proto__" := "x"; "a" := "1" ]} : gmap string string)
              !! "__proto__") as Hk by congruence.
  vm_compute in Hk. discriminate.
Qed.

(** X22. When the job list of the run is not empty and the details of the
    job at index 0 hold a list of steps, [fetchRunLogs] asks for the
    details of that job and of no other, and returns the fold of its steps
    in declared order, less the key "__proto__": a key other than
    "__proto__" is bound to the value of the last successful step that
    outputs one, and "__proto__" is never bound.  The three example steps
    give {a:"3", b:"4"}. *)
Theorem fetchRunLogs_merges_first_job (api : Remote) (runID : Z)
    (owner repo : string) (w : World) (job : Job) (others : list Job) :
  jobs api owner repo runID = job :: others →
  ∃ result : gmap string string,
    (fetchRunLogs api runID owner repo w).1 = Returned result
    ∧ result = delete "__proto__" (mergeSuccessful (steps api owner repo (job_id job)))
    ∧ trace (fetchRunLogs api runID owner repo w).2
      = trace w ++ [ Console (LogFetchingLogs runID);
                     GetJobs owner repo runID;
                     Console (LogFetchingJobDetails (job_id job));
                     GetJob owner repo (job_id job);
                     Console (LogFetchingSteps (job_id job)) ]
    ∧ (∀ k v,
         result !! k = Some v ↔
         k ≠ "__proto__"
         ∧ ∃ before step later,
             steps api owner repo (job_id job) = before ++ step :: later
             ∧ contributes step k v
             ∧ Forall (λ s, ∀ v', ¬ contributes s k v') later)
    ∧ (steps api owner repo (job_id job) = exampleSteps →
       result = {[ "a" := "3"; "b" := "4" ]}).
Proof.
  intros Hjobs. eexists. split; [|split; [reflexivity|]].
  { unfold fetchRunLogs, fetchJobs, fetchJob. run_async.
    rewrite Hjobs. simpl. by rewrite reduce_mergeSuccessful. }
  split; [|split].
  - unfold fetchRunLogs, fetchJobs, fetchJob. run_async.
    rewrite Hjobs. simpl. by rewrite <-!(assoc_L (++)).
  - intros k v. rewrite lookup_delete_Some, mergeSuccessful_lookup.
    split; intros [Hk Hrest]; (split; [congruence | done]).
  - intros Hex. rewrite Hex, mergeSuccessful_example.
    apply delete_id. by vm_compute.
Qed.

Lemma fetchRunLogs_merges_first_job_witness :
  (fetchRunLogs
     {| workflow_runs := λ _ _, []; runStatus := λ _ _ _ _, "completed";
        jobs := λ _ _ _, [ {| job_id := 11 |}; {| job_id := 12 |} ];
        steps := λ _ _ jobId, if decide (jobId = 11%Z) then exampleSteps else [] |}
     7 "ubiquity" "kernel" initial).1
  = Returned {[ "a" := "3"; "b" := "4" ]}.
Proof.
  destruct (fetchRunLogs_merges_first_job
    {| workflow_runs := λ _ _, []; runStatus := λ _ _ _ _, "completed";
       jobs := λ _ _ _, [ {| job_id := 11 |}; {| job_id := 12 |} ];
       steps := λ _ _ jobId, if decide (jobId = 11%Z) then exampleSteps else [] |}
    7 "ubiquity" "kernel" initial {| job_id := 11 |} [ {| job_id := 12 |} ]
    eq_refl) as (result & Hres & _ & _ & _ & Hex).
  rewrite Hres. f_equal. by apply Hex.
Defined.

(** ** Run lookup *)

(** C3. Whatever the remote listing holds, [fetchInProgressRunsBatch5]
    returns at most 5 runs, all named [eventType], all with status
    "in_progress", in the order of the listing. *)
Theorem fetchInProgressRunsBatch5_bounded (api : Remote)
    (owner repo eventType : string) (w : World) :
  ∃ runs : list WorkflowRun,
    (fetchInProgressRunsBatch5 api owner repo eventType w).1 = Returned runs
    ∧ length runs ≤ 5
    ∧ Forall (λ run, run_name run = eventType) runs
    ∧ Forall (λ run, run_status run = "in_progress") runs
    ∧ runs `sublist_of` workflow_runs api owner repo.
Proof.
  eexists. split; [reflexivity|].
  set (named := filter (λ run, run_name run = eventType) _).
  assert (Forall (λ run, run_name run = eventType) named) as Hnamed.
  { apply Forall_forall. intros run Hrun.
    by apply list_elem_of_filter in Hrun as [? _]. }
  repeat split.
  - etrans; [apply length_filter|]. rewrite length_take. lia.
  - apply Forall_forall. intros run Hrun.
    apply list_elem_of_filter in Hrun as [_ Hrun].
    revert run Hrun. apply Forall_forall, Forall_take, Hnamed.
  - apply Forall_forall. intros run Hrun.
    by apply list_elem_of_filter in Hrun as [? _].
  - etrans; [apply sublist_filter|].
    etrans; [apply sublist_take|]. apply sublist_filter.
Qed.

(** ** A run without jobs *)

(** C7. For a completed run whose job list is empty, [fetchRunLogs] does
    not report an outcome: reading [jobs[0].id] throws a TypeError, which
    nothing between it and the caller of [pluginDispatch] catches. *)
Theorem fetchRunLogs_without_jobs_throws :
  (fetchRunLogs remoteWithoutJobs 7 "ubiquity" "kernel" initial).1
    = Thrown (TypeError "Cannot read properties of undefined (reading 'id')")
  ∧ (pluginDispatch remoteWithoutJobs 2 helpMenu helpComment
       initial).1
    = Thrown (TypeError "Cannot read properties of undefined (reading 'id')").
Proof. split; reflexivity. Qed.

(** ** The worker's handler *)

(** C10. [handleIssueCommentCreated] adds no comment-creation call when
    the author of the comment has the type "Bot", and exactly one such
    call otherwise. *)
Theorem handleIssueCommentCreated_skips_bots (event : Worker.Context)
    (done : list Worker.Effect) :
  ∃ added : list Worker.Effect,
    Worker.handleIssueCommentCreated event done = done ++ added
    ∧ filter (λ e, Worker.isCreateComment e = true) added
      = if decide (Worker.comment_user_type event = "Bot") then []
        else [ Worker.CreateComment (Worker.repository_owner_login event)
                 (Worker.repository_name event) (Worker.issue_number event)
                 "Hello from the worker!" ].
Proof.
  unfold Worker.handleIssueCommentCreated.
  case_decide; eexists; (split; [reflexivity|done]).
Qed.

(** ** Completion polling *)

Section Polling.

Variable api : Remote.
Variables (runID : Z) (owner repo : string).

Local Abbreviation poll fuel flag := (pollLoop api fuel flag runID owner repo).
Local Abbreviation status n := (runStatus api owner repo runID n).

Lemma pollLoop_flag_set fuel w : poll fuel true w = (Returned tt, w).
Proof. by destruct fuel. Qed.

Lemma pollLoop_wait fuel w :
  status (statusReads w) ≠ "completed" →
  poll (S fuel) false w = poll fuel false (waited api runID owner repo w).
Proof.
  intros Hs. simpl. unfold fetchRun. run_async.
  case_decide; [done|]. simpl. f_equal.
  unfold waited. f_equal. by rewrite <-!(assoc_L (++)).
Qed.

Lemma pollLoop_done fuel w :
  status (statusReads w) = "completed" →
  poll (S fuel) false w = (Returned tt, completed runID owner repo w).
Proof.
  intros Hs. simpl. unfold fetchRun. run_async.
  case_decide; [|done]. simpl. rewrite pollLoop_flag_set.
  unfold completed. simpl. rewrite Hs. by rewrite <-!(assoc_L (++)).
Qed.

Lemma statusReads_waited k w :
  statusReads (Nat.iter k (waited api runID owner repo) w) = statusReads w + k.
Proof. induction k as [|k IH]; simpl; lia. Qed.



Lemma pollLoop_first_completed n w :
  status (statusReads w + n) = "completed" →
  ∃ k, k ≤ n
    ∧ status (statusReads w + k) = "completed"
    ∧ (∀ j, j < k → status (statusReads w + j) ≠ "completed")
    ∧ ∀ fuel, k < fuel →
        poll fuel false w
        = (Returned tt,
           completed runID owner repo (Nat.iter k (waited api runID owner repo) w)).
Proof.
  revert w. induction n as [|n IH]; intros w Hn.
  - rewrite Nat.add_0_r in Hn.
    exists 0. rewrite Nat.add_0_r. split; [lia|]. split; [done|].
    split; [intros j ?; lia|].
    intros [|fuel] ?; [lia|]. by rewrite pollLoop_done.
  - destruct (decide (status (statusReads w) = "completed")) as [Hs|Hs].
    + exists 0. rewrite Nat.add_0_r. split; [lia|]. split; [done|].
      split; [intros j ?; lia|].
      intros [|fuel] ?; [lia|]. by rewrite pollLoop_done.
    + destruct (IH (waited api runID owner repo w)) as (k & Hk & Hdone & Hbefore & Hrun).
      { simpl. by rewrite <-Nat.add_succ_r. }
      simpl in Hdone, Hbefore.
      exists (S k). split; [lia|]. split; [by rewrite Nat.add_succ_r|]. split.
      * intros [|j] Hj; [by rewrite Nat.add_0_r|].
        rewrite Nat.add_succ_r. apply Hbefore. lia.
      * intros [|fuel] Hfuel; [lia|].
        rewrite pollLoop_wait by done. rewrite Hrun by lia.
        by rewrite Nat.iter_succ_r.
Qed.







End Polling.





(** ** The orchestrator *)

(** C4. When none of the (at most 5) most recent runs named after the
    event type is in progress, [pluginDispatch] returns "No runs found"
    after the dispatch and the listing: it reads no status, suspends for
    no interval and asks for no job. *)
Theorem pluginDispatch_no_runs (api : Remote) (fuel : nat) (plugin : Plugin)
    (event : CommentEvent) (w : World) :
  let owner := repository_owner_login event in
  let repo := repository_name event in
  let eventType := dispatchEventType (name plugin) in
  filter (λ run, run_status run = "in_progress")
    (take 5 (filter (λ run, run_name run = eventType)
               (workflow_runs api owner repo))) = [] →
  ∃ added : list Event,
    pluginDispatch api fuel plugin event w
      = (Returned (Some "No runs found"),
         {| statusReads := statusReads w; trace := trace w ++ added |})
    ∧ filter isPollOrExtract added = []
    ∧ remoteActions added
      = [ PostDispatch objectToString repo eventType
            {| cp_body := comment_body event;
               cp_issueNumber := issue_number event;
               cp_sender := sender_login event;
               cp_repo := repo;
               cp_org := owner |};
          GetRuns owner repo ].
Proof.
  intros owner repo eventType Hnone.
  eexists. split.
  - unfold pluginDispatch, fetchInProgressRunsBatch5, fetchInvokedPluginRunner,
      fetchRuns. run_async.
    fold owner repo eventType. rewrite Hnone. simpl.
    by rewrite <-!(assoc_L (++)).
  - done.
Qed.

Lemma pluginDispatch_no_runs_witness :
  (pluginDispatch (scriptedRemote statusScript) 9 helpMenu helpComment initial).1
  = Returned (Some "No runs found").
Proof.
  destruct (pluginDispatch_no_runs (scriptedRemote statusScript) 9 helpMenu
              helpComment initial eq_refl) as (added & Hrun & _).
  by rewrite Hrun.
Defined.

(** ** The dispatch event type *)

Section Replace.

Variable input : list ascii.

Lemma execFrom_skip (r : RegExp.Regex) (i : nat) :
  i < length input →
  RegExp.m r input i Some = None →
  RegExp.execFrom r input i = RegExp.execFrom r input (S i).
Proof.
  intros Hi Hm. unfold RegExp.execFrom.
  rewrite !decide_True by lia.
  replace (length input - i) with (S (length input - S i)) by lia.
  simpl. by rewrite Hm.
Qed.

Lemma replaceLoop_skip (r : RegExp.Regex) fuel repl i n acc :
  i < length input →
  RegExp.m r input i Some = None →
  RegExp.replaceLoop fuel r input repl i n acc
  = RegExp.replaceLoop fuel r input repl (S i) n acc.
Proof.
  intros Hi Hm. destruct fuel as [|fuel]; [done|]. simpl.
  by rewrite execFrom_skip.
Qed.

Lemma execFrom_end (r : RegExp.Regex) :
  RegExp.m r input (length input) Some = None →
  RegExp.execFrom r input (length input) = None.
Proof.
  intros Hm. unfold RegExp.execFrom. rewrite decide_True by done.
  rewrite Nat.sub_diag. simpl. by rewrite Hm.
Qed.

Lemma replaceLoop_hit (r : RegExp.Regex) fuel repl i n acc e :
  i ≤ length input → n ≤ i →
  RegExp.m r input i Some = Some e → e ≠ i →
  RegExp.replaceLoop (S fuel) r input repl i n acc
  = RegExp.replaceLoop fuel r input repl e e
      (acc ++ take (i - n) (drop n input) ++ repl).
Proof.
  intros Hi Hn Hm He. simpl. unfold RegExp.execFrom.
  rewrite decide_True by done.
  destruct (length input - i); simpl; rewrite Hm;
    rewrite (proj2 (Nat.eqb_neq e i)) by done; by rewrite decide_True.
Qed.

Lemma replaceLoop_whitespace d : ∀ fuel i n acc,
  length input - i = d → n ≤ i → i ≤ length input → d < fuel →
  RegExp.replaceLoop fuel whitespace input ["-"%char] i n acc
  = acc ++ take (i - n) (drop n input) ++ map hyphenate (drop i input).
Proof.
  induction d as [|d IH]; intros fuel i n acc Hd Hn Hi Hfuel.
  - assert (i = length input) as -> by lia.
    destruct fuel as [|fuel]; [lia|]. simpl.
    rewrite execFrom_end.
    + rewrite drop_all. simpl. rewrite (right_id_L [] (++)).
      by rewrite take_ge by (rewrite length_drop; lia).
    + simpl. by rewrite (proj2 (lookup_ge_None _ _)).
  - destruct (input !! i) as [c|] eqn:Hc;
      [|apply lookup_ge_None in Hc; lia].
    rewrite (drop_S _ _ _ Hc). simpl.
    destruct (JS.isWhiteSpace c) eqn:Hws.
    + destruct fuel as [|fuel]; [lia|].
      rewrite (replaceLoop_hit _ _ _ _ _ _ (S i));
        [|done|done|simpl; by rewrite Hc; simpl; rewrite Hws|lia].
      rewrite IH by lia.
      rewrite Nat.sub_diag, take_0. simpl.
      unfold hyphenate at 2. rewrite Hws.
      by rewrite <-!(assoc_L (++)).
    + rewrite replaceLoop_skip;
        [|by apply lookup_lt_Some in Hc|simpl; by rewrite Hc; simpl; rewrite Hws].
      rewrite IH by lia.
      replace (S i - n) with (S (i - n)) by lia.
      rewrite (take_S_r _ _ c).
      * unfold hyphenate at 2. rewrite Hws. by rewrite <-!(assoc_L (++)).
      * rewrite lookup_drop. by replace (n + (i - n)) with i by lia.
Qed.

End Replace.

Lemma mapUnits_list (f : ascii → ascii) (s : string) :
  string_of_list_ascii (map f (list_ascii_of_string s)) = JS.mapUnits f s.
Proof. induction s as [|c s IH]; simpl; by rewrite ?IH. Qed.

Lemma replace_whitespace (s : string) :
  RegExp.replace s whitespace "-" = JS.mapUnits hyphenate s.
Proof.
  unfold RegExp.replace.
  rewrite (replaceLoop_whitespace _ (length (list_ascii_of_string s))) by (simpl; lia).
  simpl. rewrite drop_0. apply mapUnits_list.
Qed.

(** C8 as stated fails: a tab is not a space, yet it becomes a hyphen. *)
Lemma dispatchEventType_tab_counterexample :
  dispatchEventType ("Help" +:+ tab +:+ "Menu") = "help-menu"
  ∧ hyphenateSpaces ("Help" +:+ tab +:+ "Menu") = "help" +:+ tab +:+ "menu"
  ∧ dispatchEventType ("Help" +:+ tab +:+ "Menu")
    ≠ hyphenateSpaces ("Help" +:+ tab +:+ "Menu").
Proof. by vm_compute. Qed.

(** C8, amended. The event type is a function of the display name alone:
    the name in lower case with every white-space code unit of the class
    [\s] (space, tab, line feed, vertical tab, form feed, carriage
    return, no-break space) replaced by a hyphen.  It is the lower-cased
    name with its spaces replaced whenever the lower-cased name holds no
    other white space; "Help Menu" gives "help-menu". *)
Theorem dispatchEventType_hyphenates_whitespace (pluginName : string) :
  dispatchEventType pluginName = hyphenateWhiteSpace pluginName
  ∧ (onlySpaces (JS.toLowerCase pluginName) = true →
     dispatchEventType pluginName = hyphenateSpaces pluginName)
  ∧ dispatchEventType "Help Menu" = "help-menu".
Proof.
  assert (dispatchEventType pluginName = hyphenateWhiteSpace pluginName) as Heq.
  { apply replace_whitespace. }
  split; [done|]. split; [|by vm_compute].
  rewrite Heq. unfold hyphenateWhiteSpace, hyphenateSpaces.
  generalize (JS.toLowerCase pluginName) as s.
  induction s as [|c s IH]; intros Hs; [done|]. simpl in *.
  apply andb_prop in Hs as [Hc Hs]. rewrite IH by done. f_equal.
  unfold hyphenate. destruct (Ascii.eqb_spec c " ") as [->|Hne]; [done|].
  destruct (JS.isWhiteSpace c); [|done].
  simpl in Hc. by destruct (Ascii.eqb_spec c " ").
Qed.

Lemma dispatchEventType_hyphenates_whitespace_witness :
  dispatchEventType (name helpMenu) = hyphenateSpaces (name helpMenu).
Proof.
  apply (proj1 (proj2 (dispatchEventType_hyphenates_whitespace (name helpMenu)))).
  reflexivity.
Defined.

(** ** Command resolution *)

Arguments RegExp.isSyntaxCharacter : simpl never.

Lemma append_cons (c : ascii) (s1 s2 : string) :
  String c s1 +:+ s2 = String c (s1 +:+ s2).
Proof. reflexivity. Qed.

Lemma append_assoc (s1 s2 s3 : string) :
  (s1 +:+ s2) +:+ s3 = s1 +:+ (s2 +:+ s3).
Proof. induction s1 as [|c s1 IH]; [done|]. by rewrite !append_cons, IH. Qed.

Section Reading.

Implicit Types (stack : list (option RegExp.Regex * RegExp.Regex))
  (alts : option RegExp.Regex) (cur : RegExp.Regex).

Lemma parse_plain s : ∀ rest stack alts cur,
  plain s = true →
  RegExp.parse (s +:+ rest) stack alts cur
  = RegExp.parse rest stack alts (literalAfter cur s).
Proof.
  induction s as [|c s IH]; intros rest stack alts cur Hs; [done|].
  simpl in Hs. apply andb_prop in Hs as [Hc Hs].
  apply negb_true_iff in Hc. rewrite append_cons. simpl. rewrite Hc. by apply IH.
Qed.

Lemma parse_join cs : ∀ c alts,
  Forall (λ c', plain c' = true) (c :: cs) →
  ∃ alts' cur',
    (∀ rest stack,
       RegExp.parse (JS.join "|" (c :: cs) +:+ rest) stack alts RegExp.Empty
       = RegExp.parse rest stack alts' cur')
    ∧ RegExp.close alts' cur'
      = fold_left (λ a c', RegExp.Alt a (literal c')) cs
          (RegExp.close alts (literal c)).
Proof.
  induction cs as [|c2 cs IH]; intros c alts Hplain.
  - exists alts, (literal c). split; [|done].
    intros rest stack. simpl. apply parse_plain. by inversion Hplain.
  - inversion Hplain as [|? ? Hc Hrest]; subst.
    destruct (IH c2 (Some (RegExp.close alts (literal c))) Hrest)
      as (alts' & cur' & Hparse & Hclose).
    exists alts', cur'. split; [|done].
    intros rest stack.
    change (JS.join "|" (c :: c2 :: cs))
      with (c +:+ "|" +:+ JS.join "|" (c2 :: cs)).
    rewrite !append_assoc, parse_plain by done.
    change ("|" +:+ JS.join "|" (c2 :: cs) +:+ rest)
      with (String "|" (JS.join "|" (c2 :: cs) +:+ rest)).
    rewrite <-Hparse. reflexivity.
Qed.

Lemma compile_resolverPattern (cmds : list string) :
  Forall (λ c, plain c = true) cmds →
  RegExp.compile ("^(" +:+ JS.join "|" cmds +:+ ")\b")
  = Some (resolverPattern cmds).
Proof.
  intros Hplain. unfold RegExp.compile.
  change ("^(" +:+ JS.join "|" cmds +:+ ")\b")
    with (String "^" (String "(" (JS.join "|" cmds +:+ ")\b"))).
  destruct cmds as [|c cs]; [reflexivity|].
  destruct (parse_join cs c None Hplain) as (alts' & cur' & Hparse & Hclose).
  change (RegExp.parse (String "^" (String "(" (JS.join "|" (c :: cs) +:+ ")\b")))
            [] None RegExp.Empty)
    with (RegExp.parse (JS.join "|" (c :: cs) +:+ ")\b")
            [(None, RegExp.Seq RegExp.Empty RegExp.AssertStart)] None RegExp.Empty).
  rewrite Hparse.
  change (RegExp.parse ")\b" [(None, RegExp.Seq RegExp.Empty RegExp.AssertStart)]
            alts' cur')
    with (Some (RegExp.Seq
                  (RegExp.Seq (RegExp.Seq RegExp.Empty RegExp.AssertStart)
                     (RegExp.Group (RegExp.close alts' cur')))
                  (RegExp.WordBoundary false))).
  by rewrite Hclose.
Qed.

End Reading.

Section Matching.

Variable input : list ascii.

Local Abbreviation boundary :=
  (λ j, RegExp.m (RegExp.WordBoundary false) input j Some).

Lemma m_ext (r : RegExp.Regex) : ∀ i k k',
  (∀ j, k j = k' j) → RegExp.m r input i k = RegExp.m r input i k'.
Proof.
  induction r as [| | | | | |r1 IH1 r2 IH2|r1 IH1 r2 IH2|r IH];
    intros i cont cont' Hk; simpl; try (by repeat case_match).
  - apply IH1. intros j. by apply IH2.
  - by rewrite (IH1 i cont cont'), (IH2 i cont cont').
  - by apply IH.
Qed.

Lemma m_literalAfter s : ∀ cur i k,
  RegExp.m (literalAfter cur s) input i k
  = RegExp.m cur input i
      (λ j, if litAt s input j then k (j + String.length s) else None).
Proof.
  induction s as [|c s IH]; intros cur i k; simpl.
  - apply m_ext. intros j. f_equal. lia.
  - rewrite IH. simpl. apply m_ext. intros j.
    destruct (input !! j) as [c'|]; [|done].
    destruct (Ascii.eqb c c'); [|done]. simpl.
    destruct (litAt s input (S j)); [|done]. f_equal. lia.
Qed.

Lemma m_literal s i k :
  RegExp.m (literal s) input i k
  = if litAt s input i then k (i + String.length s) else None.
Proof. unfold literal. by rewrite m_literalAfter. Qed.

Lemma m_fold_alt cs : ∀ a0 i,
  RegExp.m (fold_left (λ a c', RegExp.Alt a (literal c')) cs a0) input i boundary
  = match RegExp.m a0 input i boundary with
    | Some e => Some e
    | None =>
        (λ c, i + String.length c)
          <$> List.find (λ c, litAt c input i
                              && RegExp.wordBoundaryAt input (i + String.length c)) cs
    end.
Proof.
  induction cs as [|c cs IH]; intros a0 i.
  - simpl. by destruct (RegExp.m a0 input i _).
  - cbn [fold_left]. rewrite IH. cbn [RegExp.m List.find].
    destruct (RegExp.m a0 input i _); [done|].
    rewrite m_literal, xorb_false_r.
    destruct (litAt c input i); [|done]. simpl.
    by destruct (RegExp.wordBoundaryAt input _).
Qed.

Lemma m_alternatives c cs i :
  RegExp.m (alternatives (c :: cs)) input i boundary
  = (λ c, i + String.length c)
      <$> List.find (λ c, litAt c input i
                          && RegExp.wordBoundaryAt input (i + String.length c))
            (c :: cs).
Proof.
  unfold alternatives. rewrite m_fold_alt, m_literal.
  cbn [List.find RegExp.m]. rewrite xorb_false_r. destruct (litAt c input i); [|done]. simpl.
  by destruct (RegExp.wordBoundaryAt input _).
Qed.

Lemma m_resolverPattern cmds i :
  RegExp.m (resolverPattern cmds) input i Some
  = if Nat.eqb i 0 then RegExp.m (alternatives cmds) input i boundary else None.
Proof. reflexivity. Qed.

Lemma scan_anchored (r : RegExp.Regex) fuel : ∀ i,
  (∀ j, RegExp.m r input (S j) Some = None) →
  RegExp.scan fuel r input (S i) = None.
Proof.
  induction fuel as [|fuel IH]; intros i Hr; simpl; rewrite Hr; [done|].
  by apply IH.
Qed.

Lemma execFrom_anchored (r : RegExp.Regex) :
  (∀ j, RegExp.m r input (S j) Some = None) →
  RegExp.execFrom r input 0 = (λ e, (0, e)) <$> RegExp.m r input 0 Some.
Proof.
  intros Hr. unfold RegExp.execFrom. rewrite decide_True by lia.
  destruct (length input - 0) as [|fuel]; simpl;
    destruct (RegExp.m r input 0 Some); try done.
  by apply scan_anchored.
Qed.

Lemma litAt_take s : ∀ j,
  litAt s input j = true →
  take (String.length s) (drop j input) = list_ascii_of_string s.
Proof.
  induction s as [|c s IH]; intros j Hs; [done|]. simpl in *.
  destruct (input !! j) as [c'|] eqn:Hc'; [|done].
  apply andb_prop in Hs as [Hc Hs]. apply Ascii.eqb_eq in Hc as <-.
  rewrite (drop_S _ _ _ Hc'). simpl. f_equal. by apply IH.
Qed.

End Matching.

Lemma litAt_prefix s : ∀ pre body,
  litAt s (pre ++ list_ascii_of_string body) (length pre) = String.prefix s body.
Proof.
  induction s as [|a s IH]; intros pre [|b body]; simpl; try done.
  - by rewrite (right_id_L [] (++)), (proj2 (lookup_ge_None _ _)).
  - rewrite list_lookup_middle by done.
    rewrite (cons_middle b), (assoc_L (++)).
    replace (S (length pre)) with (length (pre ++ [b]))
      by (rewrite length_app; simpl; lia).
    rewrite IH.
    destruct (Ascii.eqb_spec a b), (ascii_dec a b); done.
Qed.

Lemma find_pointwise {A} (f g : A → bool) (l : list A) :
  (∀ x, f x = g x) → List.find f l = List.find g l.
Proof.
  intros Hfg. induction l as [|x l IH]; [done|]. simpl.
  by rewrite Hfg, IH.
Qed.

Lemma find_map_command (f : string → bool) (plugins : list Plugin) :
  List.find f (map command plugins)
  = command <$> List.find (λ p, f (command p)) plugins.
Proof.
  induction plugins as [|p plugins IH]; [done|]. simpl.
  by destruct (f (command p)).
Qed.

Lemma find_same_command (f : string → bool) (plugins : list Plugin) (p : Plugin) :
  List.find (λ q, f (command q)) plugins = Some p →
  List.find (λ cmd, bool_decide (command cmd = command p)) plugins = Some p.
Proof.
  induction plugins as [|q plugins IH]; [done|]. simpl.
  destruct (f (command q)) eqn:Hq.
  - intros [= ->]. by rewrite bool_decide_eq_true_2.
  - intros Hp. rewrite bool_decide_eq_false_2; [by apply IH|].
    intros Heq. apply find_some in Hp as [_ Hp]. congruence.
Qed.

Lemma exec_resolverPattern (body : string) (cmds : list string) :
  cmds ≠ [] →
  RegExp.exec (resolverPattern cmds) body
  = List.find (λ c, matchesAtStart c body) cmds.
Proof.
  intros Hne. destruct cmds as [|c cs]; [done|].
  unfold RegExp.exec. rewrite execFrom_anchored by done.
  rewrite m_resolverPattern. cbn [Nat.eqb]. rewrite m_alternatives.
  set (P := λ c', litAt c' (list_ascii_of_string body) 0 && _).
  assert (∀ c', P c' = matchesAtStart c' body) as HP.
  { intros c'. unfold P, matchesAtStart.
    by rewrite <-(litAt_prefix c' [] body). }
  rewrite (find_pointwise _ _ _ HP).
  destruct (List.find _ (c :: cs)) as [c'|] eqn:Hfind; [|done]. simpl.
  apply find_some in Hfind as [_ Hc'].
  apply andb_prop in Hc' as [Hc' _].
  rewrite <-(litAt_prefix c' [] body) in Hc'. simpl in Hc'.
  rewrite Nat.sub_0_r.
  rewrite (litAt_take _ _ _ Hc'). by rewrite string_of_list_ascii_of_string.
Qed.

Lemma commentParser_plain (body : string) (plugins : list Plugin) :
  Forall (λ p, plain (command p) = true) plugins →
  commentParser body plugins
  = Some (command <$> List.find (λ p, matchesAtStart (command p) body) plugins).
Proof.
  intros Hplain. unfold commentParser.
  rewrite compile_resolverPattern by by apply Forall_map.
  simpl. f_equal.
  destruct plugins as [|p plugins].
  - simpl. by destruct (RegExp.exec _ body).
  - rewrite exec_resolverPattern by done.
    rewrite find_map_command.
    destruct (List.find _ (p :: plugins)) as [q|] eqn:Hfind; [|done].
    simpl. unfold JS.includes. rewrite bool_decide_eq_true_2; [done|].
    apply find_some in Hfind as [Hq _].
    change (command q ∈ map command (p :: plugins)).
    by apply list_elem_of_In, in_map.
Qed.

(** C5 as stated fails: "/help" stands at the start of "/helpme", yet
    no command is returned. *)
Lemma commentParser_prefix_counterexample :
  String.prefix (command helpMenu) "/helpme" = true
  ∧ commentParser "/helpme" userCommands = Some None
  ∧ commandHandler "/helpme" userCommands = Some None.
Proof. by vm_compute. Qed.

(** C5, amended. For commands whose match strings hold no syntax
    character of the pattern language, [commentParser] returns the match
    string of the first command, in configuration order, whose match
    string stands at the start of the text and ends there at a word
    boundary, and [null] when the list is empty or no command does so;
    when no match string is empty, the handler selected is that first
    command.  For the command "/help" and the text "hello" the result is
    [null]. *)
Theorem commentParser_first_boundary_match (body : string)
    (plugins : list Plugin) :
  Forall (λ p, plain (command p) = true) plugins →
  commentParser body plugins
    = Some (command <$> List.find (λ p, matchesAtStart (command p) body) plugins)
  ∧ (Forall (λ p, matchesAtStart (command p) body = false) plugins →
     commentParser body plugins = Some None)
  ∧ commentParser body [] = Some None
  ∧ (Forall (λ p, command p ≠ "") plugins →
     commandHandler body plugins
       = Some (List.find (λ p, matchesAtStart (command p) body) plugins))
  ∧ commentParser "hello" userCommands = Some None
  ∧ commandHandler "hello" userCommands = Some None.
Proof.
  intros Hplain. pose proof (commentParser_plain body plugins Hplain) as Hparser.
  split; [done|]. split; [|split; [|split; [|by vm_compute]]].
  - intros Hnone. rewrite Hparser. f_equal.
    destruct (List.find _ plugins) as [p|] eqn:Hfind; [|done].
    apply find_some in Hfind as [Hp Hmatch].
    apply list_elem_of_In in Hp.
    eapply Forall_forall in Hnone; [|done]. congruence.
  - by rewrite (commentParser_plain body []).
  - intros Hnonempty. unfold commandHandler. rewrite Hparser. simpl. f_equal.
    destruct (List.find _ plugins) as [p|] eqn:Hfind; [|done]. simpl.
    rewrite decide_False.
    + by apply (find_same_command (λ c, matchesAtStart c body)).
    + apply find_some in Hfind as [Hp _]. apply list_elem_of_In in Hp.
      by eapply Forall_forall in Hnonempty.
Qed.

Lemma commentParser_first_boundary_match_witness :
  commentParser "/help me" userCommands = Some (Some "/help")
  ∧ commandHandler "/help me" userCommands = Some (Some helpMenu).
Proof.
  destruct (commentParser_first_boundary_match "/help me" userCommands)
    as (Hparser & _ & _ & Hhandler & _).
  - by repeat constructor.
  - split; [exact Hparser|]. apply Hhandler. by repeat constructor.
Defined.

(** C9. A string returned by [commentParser] is the match string of one
    of the given commands, whatever text the pattern matched; when the
    matched text is the match string of none of them, the result is
    [null], as for the command "/ask\s" on the text "/ask why", where
    the pattern matches "/ask ". *)
Theorem commentParser_returns_configured (body : string) (plugins : list Plugin) :
  (∀ c, commentParser body plugins = Some (Some c) → c ∈ map command plugins)
  ∧ (∀ matches c,
       chooseCommand (map command plugins) matches = Some c →
       matches = Some c ∧ c ∈ map command plugins)
  ∧ (∀ matched,
       matched ∉ map command plugins →
       chooseCommand (map command plugins) (Some matched) = None)
  ∧ (∃ regex,
       RegExp.compile ("^(" +:+ JS.join "|" (map command [research]) +:+ ")\b")
         = Some regex
       ∧ RegExp.exec regex "/ask why" = Some "/ask "
       ∧ commentParser "/ask why" [research] = Some None).
Proof.
  assert (∀ matches c,
            chooseCommand (map command plugins) matches = Some c →
            matches = Some c ∧ c ∈ map command plugins) as Hchoose.
  { intros [matched|] c; [|done]. simpl.
    destruct (JS.includes _ matched) eqn:Hin; [|done].
    intros [= ->]. by apply bool_decide_eq_true in Hin. }
  split; [|split; [done|split]].
  - intros c. unfold commentParser.
    destruct (RegExp.compile _) as [regex|]; [|done]. simpl.
    intros [= Hc]. by apply Hchoose in Hc as [_ ?].
  - intros matched Hnotin. simpl.
    unfold JS.includes. by rewrite bool_decide_eq_false_2.
  - eexists. by vm_compute.
Qed.

Lemma commentParser_returns_configured_witness :
  "/help" ∈ map command userCommands.
Proof.
  apply (proj1 (commentParser_returns_configured "/help me" userCommands)
           "/help" eq_refl).
Defined.

(** * Further properties of the pipeline *)

(** ** Run lookup *)

Lemma fetchInProgressRunsBatch5_run (api : Remote) (owner repo eventType : string)
    (w : World) :
  fetchInProgressRunsBatch5 api owner repo eventType w
  = (Returned (inProgressRuns api owner repo eventType),
     {| statusReads := statusReads w; trace := trace w ++ [GetRuns owner repo] |}).
Proof. reflexivity. Qed.

(** X1. [fetchUncompletedRunsBatch5] returns at most 5 runs, all named
    [eventType], none with status "completed", in the order of the
    listing, and every run that [fetchInProgressRunsBatch5] returns is
    among them, in the same order. *)
Theorem fetchUncompletedRunsBatch5_bounded (api : Remote)
    (owner repo eventType : string) (w : World) :
  ∃ runs : list WorkflowRun,
    (fetchUncompletedRunsBatch5 api owner repo eventType w).1 = Returned runs
    ∧ length runs ≤ 5
    ∧ Forall (λ run, run_name run = eventType ∧ run_status run ≠ "completed") runs
    ∧ runs `sublist_of` workflow_runs api owner repo
    ∧ inProgressRuns api owner repo eventType `sublist_of` runs.
Proof.
  eexists. split; [reflexivity|].
  fold (recentRuns api owner repo eventType).
  split; [|split; [|split]].
  - etrans; [apply length_filter|]. unfold recentRuns. rewrite length_take. lia.
  - apply Forall_forall. intros run Hrun.
    apply list_elem_of_filter in Hrun as [Hstatus Hrun]. split; [|done].
    unfold recentRuns in Hrun. apply elem_of_take in Hrun as (i & Hrun & _).
    apply list_elem_of_lookup_2, list_elem_of_filter in Hrun. tauto.
  - etrans; [apply sublist_filter|].
    etrans; [apply sublist_take|]. apply sublist_filter.
  - unfold inProgressRuns.
    rewrite (list_filter_iff (λ run, run_status run = "in_progress")
               (λ run, run_status run = "in_progress"
                       ∧ run_status run ≠ "completed")).
    + rewrite <-list_filter_filter. apply sublist_filter.
    + intros run. split; [intros Hs; by rewrite Hs|tauto].
Qed.

(** X2. The lookup window is cut before the status is looked at: a
    run is returned exactly when it is in progress and stands among the
    first five runs of the listing that are named [eventType]; a run in
    progress behind five such runs is not found. *)
Theorem fetchInProgressRunsBatch5_window (api : Remote)
    (owner repo eventType : string) (w : World) (run : WorkflowRun) :
  (fetchInProgressRunsBatch5 api owner repo eventType w).1
    = Returned (inProgressRuns api owner repo eventType)
  ∧ (run ∈ inProgressRuns api owner repo eventType ↔
     run_status run = "in_progress"
     ∧ ∃ i, i < 5
           ∧ filter (λ r, run_name r = eventType) (workflow_runs api owner repo) !! i
             = Some run).
Proof.
  split; [done|]. unfold inProgressRuns, recentRuns.
  rewrite list_elem_of_filter, elem_of_take. split.
  - intros (Hs & i & Hi & Hlt). split; [done|]. by exists i.
  - intros (Hs & i & Hlt & Hi). split; [done|]. by exists i.
Qed.

(** ** Polling without an end *)

(** X3. The poller has no bound of its own: when no status read ever
    answers "completed", the loop has not settled after any number of
    iterations, each of which read the status once and suspended; the
    extraction is never reached. *)
Theorem pollLoop_never_settles (api : Remote) (runID : Z) (owner repo : string)
    (w : World) (fuel : nat) :
  (∀ n, runStatus api owner repo runID (statusReads w + n) ≠ "completed") →
  pollLoop api fuel false runID owner repo w
    = (Pending, Nat.iter fuel (waited api runID owner repo) w)
  ∧ statusReads (pollLoop api fuel false runID owner repo w).2
    = statusReads w + fuel
  ∧ pollInProgressRunTillCompletion api fuel runID owner repo w
    = (Pending, Nat.iter fuel (waited api runID owner repo) w).
Proof.
  intros Hnever.
  assert (pollLoop api fuel false runID owner repo w
          = (Pending, Nat.iter fuel (waited api runID owner repo) w)) as Hrun.
  { revert w Hnever. induction fuel as [|fuel IH]; intros w Hnever; [done|].
    rewrite pollLoop_wait
      by (specialize (Hnever 0); by rewrite Nat.add_0_r in Hnever).
    rewrite IH, Nat.iter_succ_r; [done|].
    intros n. simpl. rewrite <-Nat.add_succ_r. apply Hnever. }
  split; [done|]. split.
  - rewrite Hrun. simpl. apply statusReads_waited.
  - unfold pollInProgressRunTillCompletion, bind. by rewrite Hrun.
Qed.

Lemma pollLoop_never_settles_witness :
  (pollInProgressRunTillCompletion stuckRemote 50 7 "ubiquity" "kernel" initial).1
  = Pending.
Proof.
  destruct (pollLoop_never_settles stuckRemote 7 "ubiquity" "kernel" initial 50)
    as (_ & _ & Hrun).
  - intros n. simpl. discriminate.
  - by rewrite Hrun.
Defined.

(** ** The ways [fetchRunLogs] settles *)

(** X4. When the job list of the run is empty, [fetchRunLogs] throws
    the TypeError of reading [id] of [undefined], right after the job
    listing: it has asked for no job details and has read no status. *)
Theorem fetchRunLogs_throws_without_job (api : Remote) (runID : Z)
    (owner repo : string) (w : World) :
  jobs api owner repo runID = [] →
  fetchRunLogs api runID owner repo w
  = (Thrown (TypeError "Cannot read properties of undefined (reading 'id')"),
     {| statusReads := statusReads w;
        trace := trace w ++ [ Console (LogFetchingLogs runID);
                              GetJobs owner repo runID ] |}).
Proof.
  intros Hjobs. unfold fetchRunLogs, fetchJobs, fetchJob. run_async.
  rewrite Hjobs. simpl. by rewrite <-!(assoc_L (++)).
Qed.

Lemma fetchRunLogs_throws_without_job_witness :
  trace (fetchRunLogs remoteWithoutJobs 7 "ubiquity" "kernel" initial).2
  = [ Console (LogFetchingLogs 7); GetJobs "ubiquity" "kernel" 7 ].
Proof.
  by rewrite (fetchRunLogs_throws_without_job remoteWithoutJobs 7 "ubiquity"
                "kernel" initial eq_refl).
Defined.

(** ** What the reduce keeps *)

Lemma reducer_unsuccessful (acc : gmap string string) (step : Step) :
  ¬ (conclusion step = "success" ∧ is_Some (outputs step)) →
  reducer acc step = acc.
Proof.
  intros Hno. unfold reducer.
  destruct (outputs step) as [outs|]; [|done].
  case_decide; [|done]. destruct Hno. by split.
Qed.

(** X5. Steps that did not succeed, or have no outputs, contribute
    nothing: removing them from the step list leaves the result of the
    reduce unchanged, and when no step succeeded the result is empty. *)
Theorem reduce_ignores_unsuccessful (l : list Step) :
  fold_left reducer l ∅
    = fold_left reducer
        (filter (λ s, conclusion s = "success" ∧ is_Some (outputs s)) l) ∅
  ∧ (Forall (λ s, conclusion s ≠ "success") l → fold_left reducer l ∅ = ∅).
Proof.
  split.
  - generalize (∅ : gmap string string).
    induction l as [|s l IH]; intros acc; [done|].
    rewrite filter_cons. case_decide as Hs; simpl.
    + apply IH.
    + rewrite reducer_unsuccessful by done. apply IH.
  - generalize (∅ : gmap string string).
    induction l as [|s l IH]; intros acc Hall; [done|].
    inversion Hall as [|? ? Hs Hl]; subst. simpl.
    rewrite reducer_unsuccessful by tauto. by apply IH.
Qed.

Lemma reduce_ignores_unsuccessful_witness :
  fold_left reducer
    [ {| conclusion := "failure"; outputs := Some {[ "a" := "2" ]} |};
      {| conclusion := "skipped"; outputs := None |} ] ∅ = ∅.
Proof.
  apply (proj2 (reduce_ignores_unsuccessful _)). by repeat constructor.
Defined.

(** X6. The outputs of the last step, when it succeeded, reach the
    result whatever the steps before it wrote: every pair of them under a
    key other than "__proto__" is in the result, and "__proto__" is not
    bound there. *)
Theorem reduce_keeps_last_step (l : list Step) (s : Step)
    (outs : gmap string string) :
  conclusion s = "success" →
  outputs s = Some outs →
  delete "__proto__" outs ⊆ fold_left reducer (l ++ [s]) ∅
  ∧ (∀ k v, k ≠ "__proto__" → outs !! k = Some v →
            fold_left reducer (l ++ [s]) ∅ !! k = Some v)
  ∧ fold_left reducer (l ++ [s]) ∅ !! "__proto__" = None.
Proof.
  intros Hs Houts. split; [|split].
  - rewrite fold_left_app. simpl.
    unfold reducer at 1. rewrite Houts, decide_True by done.
    rewrite copyOutputs_union. apply map_union_subseteq_l.
  - intros k v Hk Hv. rewrite fold_left_app. simpl.
    unfold reducer at 1. rewrite Houts, decide_True by done.
    rewrite copyOutputs_union. apply lookup_union_Some_l.
    by rewrite lookup_delete_ne.
  - rewrite reduce_mergeSuccessful. apply lookup_delete_eq.
Qed.

Lemma reduce_keeps_last_step_witness :
  fold_left reducer exampleSteps ∅ !! "b" = Some "4".
Proof.
  apply (proj1 (proj2 (reduce_keeps_last_step
           [ {| conclusion := "success"; outputs := Some {[ "a" := "1" ]} |};
             {| conclusion := "failure"; outputs := Some {[ "a" := "2" ]} |} ]
           {| conclusion := "success";
              outputs := Some {[ "a" := "3"; "b" := "4" ]} |}
           _ eq_refl eq_refl)) "b" "4"); by vm_compute.
Defined.

Lemma dom_mergeSuccessful (l : list Step) :
  dom (mergeSuccessful l) = successfulKeys l.
Proof.
  unfold mergeSuccessful.
  enough (∀ acc : gmap string string,
            dom (fold_left
                   (λ acc step,
                      match outputs step with
                      | Some outs =>
                          if decide (conclusion step = "success")
                          then outs ∪ acc else acc
                      | None => acc
                      end) l acc)
            = dom acc ∪ successfulKeys l) as Hgen.
  { rewrite Hgen, dom_empty_L. by rewrite (left_id_L ∅ (∪)). }
  unfold successfulKeys.
  induction l as [|s l IH]; intros acc; simpl.
  - by rewrite (right_id_L ∅ (∪)).
  - rewrite IH.
    destruct (outputs s) as [outs|]; [case_decide|].
    + rewrite dom_union_L.
      by rewrite (comm_L (∪) (dom outs)), (assoc_L (∪)).
    + by rewrite (left_id_L ∅ (∪)).
    + by rewrite (left_id_L ∅ (∪)).
Qed.

(** X7. The result of the reduce binds exactly the keys that some
    successful step outputs, except "__proto__": no other key is lost,
    none is made up, and "__proto__" is never bound. *)
Theorem reduce_keys (l : list Step) :
  dom (fold_left reducer l ∅) = successfulKeys l ∖ {[ "__proto__" ]}.
Proof.
  by rewrite reduce_mergeSuccessful, dom_delete_L, dom_mergeSuccessful.
Qed.

(** ** The effects of the pipeline *)

Section Effects.

Variable api : Remote.

Lemma pollLoop_effects fuel : ∀ flag runID owner repo w,
  ∃ added,
    trace (pollLoop api fuel flag runID owner repo w).2 = trace w ++ added
    ∧ Forall (pollEffect owner repo runID) added.
Proof.
  induction fuel as [|fuel IH]; intros flag runID owner repo w.
  - exists []. destruct flag; simpl; by rewrite (right_id_L [] (++)).
  - destruct flag.
    { exists []. simpl. by rewrite (right_id_L [] (++)). }
    simpl. unfold fetchRun. run_async. case_decide as Hs; simpl.
    + destruct (IH true runID owner repo
                  {| statusReads := S (statusReads w);
                     trace := ((trace w ++ [Console (LogPolling runID)])
                               ++ [GetRun owner repo runID
                                     (runStatus api owner repo runID (statusReads w))])
                              ++ [Console (LogRunCompleted runID)] |})
        as (added & -> & Hadded).
      eexists. simpl. rewrite <-!(assoc_L (++)). split; [done|].
      simpl. by repeat constructor.
    + destruct (IH false runID owner repo
                  {| statusReads := S (statusReads w);
                     trace := ((trace w ++ [Console (LogPolling runID)])
                               ++ [GetRun owner repo runID
                                     (runStatus api owner repo runID (statusReads w))])
                              ++ [Sleep 15000] |})
        as (added & -> & Hadded).
      eexists. simpl. rewrite <-!(assoc_L (++)). split; [done|].
      simpl. by repeat constructor.
Qed.

Lemma fetchRunLogs_effects runID owner repo w :
  ∃ added,
    trace (fetchRunLogs api runID owner repo w).2 = trace w ++ added
    ∧ Forall (extractEffect owner repo runID) added.
Proof.
  unfold fetchRunLogs, fetchJobs, fetchJob. run_async.
  destruct (jobs api owner repo runID) as [|job others]; simpl;
    eexists; rewrite <-!(assoc_L (++)); (split; [done|]);
    simpl; by repeat constructor.
Qed.

Lemma pollInProgressRunTillCompletion_effects fuel runID owner repo w :
  ∃ added,
    trace (pollInProgressRunTillCompletion api fuel runID owner repo w).2
      = trace w ++ added
    ∧ Forall (λ e, pollEffect owner repo runID e ∨ extractEffect owner repo runID e)
        added.
Proof.
  unfold pollInProgressRunTillCompletion, bind.
  destruct (pollLoop_effects fuel false runID owner repo w) as (polled & Hp & Hpolled).
  destruct (pollLoop api fuel false runID owner repo w) as [[[]|e|] w1];
    simpl in Hp.
  - destruct (fetchRunLogs_effects runID owner repo w1) as (read & Hr & Hread).
    exists (polled ++ read). rewrite Hr, Hp, (assoc_L (++)). split; [done|].
    apply Forall_app. split; eapply Forall_impl; eauto.
  - exists polled. split; [done|]. eapply Forall_impl; eauto.
  - exists polled. split; [done|]. eapply Forall_impl; eauto.
Qed.

Lemma pluginDispatch_effects fuel plugin event w :
  ∃ later,
    trace (pluginDispatch api fuel plugin event w).2
      = trace w ++ dispatchEffects plugin event ++ later
    ∧ match inProgressRuns api (repository_owner_login event)
              (repository_name event) (dispatchEventType (name plugin)) with
      | [] => later = []
      | run :: _ =>
          Forall (λ e, pollEffect (repository_owner_login event)
                         (repository_name event) (run_id run) e
                       ∨ extractEffect (repository_owner_login event)
                           (repository_name event) (run_id run) e
                       ∨ reportEffect e) later
      end.
Proof.
  unfold pluginDispatch, fetchInProgressRunsBatch5, fetchInvokedPluginRunner,
    fetchRuns.
  unfold console_log, emit, bind, ret, throw. simpl.
  fold (recentRuns api (repository_owner_login event) (repository_name event)
          (dispatchEventType (name plugin))).
  fold (inProgressRuns api (repository_owner_login event) (repository_name event)
          (dispatchEventType (name plugin))).
  destruct (inProgressRuns _ _ _ _) as [|run others]; simpl.
  { exists []. split; [|done]. by rewrite <-!(assoc_L (++)). }
  match goal with
  | |- context [pollInProgressRunTillCompletion api fuel ?id ?o ?r ?w1] =>
      destruct (pollInProgressRunTillCompletion_effects fuel id o r w1)
        as (polled & Hp & Hpolled);
      destruct (pollInProgressRunTillCompletion api fuel id o r w1)
        as [[output|e|] w2]
  end; simpl in *; rewrite Hp, <-!(assoc_L (++)); simpl;
    (eexists; split; [reflexivity|]);
    (constructor; [by right; right|]).
  - apply Forall_app. split.
    + eapply Forall_impl; [exact Hpolled|].
      intros x [?|?]; [by left|by right; left].
    + repeat constructor; by right; right.
  - eapply Forall_impl; [exact Hpolled|].
    intros x [?|?]; [by left|by right; left].
  - eapply Forall_impl; [exact Hpolled|].
    intros x [?|?]; [by left|by right; left].
Qed.

End Effects.

(** X8. Whatever the remote answers and however long the run takes,
    [pluginDispatch] posts exactly one dispatch, before it lists the
    runs, and never posts another: no stage retries it. *)
Theorem pluginDispatch_dispatches_once (api : Remote) (fuel : nat)
    (plugin : Plugin) (event : CommentEvent) (w : World) :
  ∃ later,
    trace (pluginDispatch api fuel plugin event w).2
      = trace w ++ dispatchEffects plugin event ++ later
    ∧ filter (λ e, isDispatch e = true) (dispatchEffects plugin event ++ later)
      = [ PostDispatch objectToString (repository_name event)
            (dispatchEventType (name plugin))
            {| cp_body := comment_body event;
               cp_issueNumber := issue_number event;
               cp_sender := sender_login event;
               cp_repo := repository_name event;
               cp_org := repository_owner_login event |} ].
Proof.
  destruct (pluginDispatch_effects api fuel plugin event w) as (later & Ht & Hlater).
  exists later. split; [done|].
  enough (filter (λ e, isDispatch e = true) later = []) as Hnone.
  { rewrite filter_app, Hnone. reflexivity. }
  destruct (inProgressRuns _ _ _ _) as [|run others]; [by subst|].
  clear Ht. induction Hlater as [|e later He _ IH]; [done|].
  rewrite filter_cons, IH.
  destruct e as [[]| | | | | |]; simpl in *; try done; tauto.
Qed.

(** X9. The only run that [pluginDispatch] polls, and whose jobs it asks
    for, is the first of the runs in progress: every status read and
    every job listing names that run. *)
Theorem pluginDispatch_follows_first_run (api : Remote) (fuel : nat)
    (plugin : Plugin) (event : CommentEvent) (w : World) (run : WorkflowRun)
    (others : list WorkflowRun) :
  inProgressRuns api (repository_owner_login event) (repository_name event)
    (dispatchEventType (name plugin)) = run :: others →
  ∃ added,
    trace (pluginDispatch api fuel plugin event w).2 = trace w ++ added
    ∧ Forall (λ e, match e with
                   | GetRun o r id _ | GetJobs o r id =>
                       o = repository_owner_login event
                       ∧ r = repository_name event ∧ id = run_id run
                   | _ => True
                   end) added.
Proof.
  intros Hruns.
  destruct (pluginDispatch_effects api fuel plugin event w) as (later & Ht & Hlater).
  rewrite Hruns in Hlater.
  eexists. split; [exact Ht|].
  apply Forall_app. split; [by repeat constructor|].
  eapply Forall_impl; [exact Hlater|].
  intros [[]| | | | | |]; simpl; tauto.
Qed.

Lemma pluginDispatch_follows_first_run_witness :
  ∃ added,
    trace (pluginDispatch helpRemote 9 helpMenu helpComment initial).2 = added
    ∧ Forall (λ e, match e with
                   | GetRun _ _ id _ | GetJobs _ _ id => id = 7%Z
                   | _ => True
                   end) added.
Proof.
  destruct (pluginDispatch_follows_first_run helpRemote 9 helpMenu helpComment
              initial {| run_id := 7; run_name := "help-menu";
                         run_status := "in_progress" |} [] eq_refl)
    as (added & Ht & Hadded).
  exists added. split; [exact Ht|].
  eapply Forall_impl; [exact Hadded|].
  intros [[]| | | | | |]; simpl; tauto.
Defined.

(** ** From the lookup to the report *)

Lemma fetchRunLogs_run (api : Remote) (runID : Z) (owner repo : string)
    (w : World) (job : Job) (others : list Job) :
  jobs api owner repo runID = job :: others →
  fetchRunLogs api runID owner repo w
  = (Returned (delete "__proto__"
                 (mergeSuccessful (steps api owner repo (job_id job)))),
     {| statusReads := statusReads w;
        trace := trace w ++
          [ Console (LogFetchingLogs runID);
            GetJobs owner repo runID;
            Console (LogFetchingJobDetails (job_id job));
            GetJob owner repo (job_id job);
            Console (LogFetchingSteps (job_id job)) ] |}).
Proof.
  intros Hjobs. unfold fetchRunLogs, fetchJobs, fetchJob. run_async.
  rewrite Hjobs. simpl. by rewrite reduce_mergeSuccessful, <-!(assoc_L (++)).
Qed.

Lemma pollInProgressRunTillCompletion_returns (api : Remote) (runID : Z)
    (owner repo : string) (w : World) (n : nat) (job : Job) (others : list Job) :
  runStatus api owner repo runID (statusReads w + n) = "completed" →
  jobs api owner repo runID = job :: others →
  ∃ k, k ≤ n ∧ ∀ fuel, k < fuel →
    ∃ w', pollInProgressRunTillCompletion api fuel runID owner repo w
          = (Returned (delete "__proto__"
                         (mergeSuccessful (steps api owner repo (job_id job)))),
             w')
      ∧ statusReads w' = statusReads w + S k.
Proof.
  intros Hn Hjobs.
  destruct (pollLoop_first_completed api runID owner repo n w Hn)
    as (k & Hk & _ & _ & Hrun).
  exists k. split; [done|]. intros fuel Hfuel.
  unfold pollInProgressRunTillCompletion, bind. rewrite Hrun by done.
  rewrite (fetchRunLogs_run _ _ _ _ _ _ _ Hjobs).
  eexists. split; [reflexivity|]. simpl. rewrite statusReads_waited. lia.
Qed.

(** X10. The whole pipeline on a run that completes: when a run is in
    progress for the event type, some status read of the first such run
    answers "completed" and that run has a job whose details hold a list
    of steps, [pluginDispatch] settles for every fuel above the index of
    that read, returns [undefined] and ends by writing to the console the
    mapping that [fetchRunLogs] extracted: the merged outputs of the
    successful steps of the run's first job, less the key "__proto__". *)
Theorem pluginDispatch_reports_outputs (api : Remote) (plugin : Plugin)
    (event : CommentEvent) (w : World) (run : WorkflowRun)
    (others : list WorkflowRun) (n : nat) (job : Job) (jobs' : list Job) :
  let owner := repository_owner_login event in
  let repo := repository_name event in
  inProgressRuns api owner repo (dispatchEventType (name plugin)) = run :: others →
  runStatus api owner repo (run_id run) (statusReads w + n) = "completed" →
  jobs api owner repo (run_id run) = job :: jobs' →
  ∃ k, k ≤ n ∧ ∀ fuel, k < fuel →
    ∃ w', pluginDispatch api fuel plugin event w = (Returned None, w')
      ∧ statusReads w' = statusReads w + S k
      ∧ last (trace w')
        = Some (Console (LogOutput (fold_left reducer
                                      (steps api owner repo (job_id job)) ∅)))
      ∧ fold_left reducer (steps api owner repo (job_id job)) ∅
        = delete "__proto__"
            (mergeSuccessful (steps api owner repo (job_id job))).
Proof.
  intros owner repo Hruns Hn Hjobs.
  set (w1 := {| statusReads := statusReads w;
                trace := (trace w ++ dispatchEffects plugin event)
                         ++ [Console (LogFoundRuns (length (run :: others))
                                        (dispatchEventType (name plugin)))] |}).
  destruct (pollInProgressRunTillCompletion_returns api (run_id run) owner repo
              w1 n job jobs' Hn Hjobs) as (k & Hk & Hpoll).
  exists k. split; [done|]. intros fuel Hfuel.
  destruct (Hpoll fuel Hfuel) as (w2 & Hw2 & Hreads).
  unfold pluginDispatch, fetchInProgressRunsBatch5, fetchInvokedPluginRunner,
    fetchRuns.
  unfold console_log, emit, bind, ret, throw. simpl.
  fold owner repo.
  fold (recentRuns api owner repo (dispatchEventType (name plugin))).
  fold (inProgressRuns api owner repo (dispatchEventType (name plugin))).
  rewrite Hruns. simpl.
  match goal with
  | |- context [pollInProgressRunTillCompletion api fuel _ _ _ ?w0] =>
      replace w0 with w1
        by (unfold w1, dispatchEffects; simpl; fold owner repo;
            by rewrite <-!(assoc_L (++)))
  end.
  rewrite Hw2. eexists. split; [reflexivity|]. simpl. split; [done|].
  rewrite reduce_mergeSuccessful. split; [apply last_snoc|done].
Qed.

Lemma pluginDispatch_reports_outputs_witness :
  ∃ w', pluginDispatch helpRemote 9 helpMenu helpComment initial
        = (Returned None, w')
    ∧ last (trace w') = Some (Console (LogOutput {[ "answer" := "42" ]})).
Proof.
  destruct (pluginDispatch_reports_outputs helpRemote helpMenu helpComment initial
              {| run_id := 7; run_name := "help-menu"; run_status := "in_progress" |}
              [] 3 {| job_id := 11 |} [] eq_refl eq_refl eq_refl)
    as (k & Hk & Hrun).
  destruct (Hrun 9) as (w' & Hw' & _ & Hlast & _); [lia|].
  exists w'. split; [exact Hw'|]. rewrite Hlast. do 3 f_equal.
Defined.

(** ** The handler of the comment event *)

Lemma later_without_dispatch (owner repo : string) (runID : Z) (later : list Event) :
  Forall (λ e, pollEffect owner repo runID e ∨ extractEffect owner repo runID e
               ∨ reportEffect e) later →
  filter (λ e, isDispatch e = true) later = [].
Proof.
  induction 1 as [|e later He _ IH]; [done|].
  rewrite filter_cons, IH.
  destruct e as [[]| | | | | |]; simpl in *; try done; tauto.
Qed.

Lemma commandHandler_plain (body : string) (plugins : list Plugin) :
  Forall (λ p, plain (command p) = true) plugins →
  commandHandler body plugins
  = Some match List.find (λ p, matchesAtStart (command p) body) plugins with
         | Some p => if decide (command p = "") then None else Some p
         | None => None
         end.
Proof.
  intros Hplain. unfold commandHandler.
  rewrite commentParser_plain by done. simpl. f_equal.
  destruct (List.find _ plugins) as [p|] eqn:Hfind; [|done]. simpl.
  case_decide; [done|].
  by apply (find_same_command (λ c, matchesAtStart c body)).
Qed.

Lemma remoteActions_console (t : list Event) (l : LogLine) :
  remoteActions (t ++ [Console l]) = remoteActions t.
Proof.
  unfold remoteActions. rewrite filter_app, filter_cons, filter_nil.
  rewrite decide_False by done. apply (right_id_L [] (++)).
Qed.

(** X11. What [issueCommentCreated] does once [getUbiquiBotConfig] has
    answered, for a configuration without plugins for the event or a
    comment for which no handler is selected: it writes its two console
    lines and returns.  It posts no dispatch, lists no runs, reads no
    status, suspends for no interval and asks for no job. *)
Theorem issueCommentCreated_without_handler (api : Remote) (fuel : nat)
    (configured : option (list Plugin)) (event : CommentEvent) (w : World) :
  configured = None
  ∨ (∃ plugins, configured = Some plugins
                ∧ commandHandler (comment_body event) plugins = Some None) →
  ∃ handler,
    issueCommentCreated api fuel configured event = Some handler
    ∧ (handler w).1 = Returned tt
    ∧ statusReads (handler w).2 = statusReads w
    ∧ trace (handler w).2
      = trace w
        ++ [ Console (LogFetchingConfiguration (repository_name event));
             match configured with
             | None => Console LogNoPlugins
             | Some plugins =>
                 Console (LogFoundPlugins (length plugins)
                            (repository_name event))
             end ]
    ∧ remoteActions (trace (handler w).2) = remoteActions (trace w).
Proof.
  intros [->|(plugins & -> & Hnone)]; unfold issueCommentCreated.
  - eexists. split; [reflexivity|]. run_async.
    split; [done|]. split; [done|]. split; [by rewrite <-!(assoc_L (++))|].
    by rewrite !remoteActions_console.
  - rewrite Hnone. simpl.
    eexists. split; [reflexivity|]. run_async.
    split; [done|]. split; [done|]. split; [by rewrite <-!(assoc_L (++))|].
    by rewrite !remoteActions_console.
Qed.

Lemma issueCommentCreated_without_handler_witness :
  ∃ handler,
    issueCommentCreated helpRemote 9 (Some userCommands)
      {| comment_body := "hello"; issue_number := 1; sender_login := "alice";
         repository_name := "kernel"; repository_owner_login := "ubiquity" |}
    = Some handler
    ∧ remoteActions (trace (handler initial).2) = [].
Proof.
  destruct (issueCommentCreated_without_handler helpRemote 9 (Some userCommands)
              {| comment_body := "hello"; issue_number := 1;
                 sender_login := "alice"; repository_name := "kernel";
                 repository_owner_login := "ubiquity" |} initial)
    as (handler & Hh & _ & _ & _ & Hremote).
  - right. by exists userCommands.
  - by exists handler.
Defined.

(** X12. For commands whose match strings are plain and not empty, a
    comment posts a dispatch exactly when it starts with the match string
    of some command followed by a word boundary; it then posts one
    dispatch only, of the event type derived from the name of the first
    such command, carrying the comment's body, issue number, sender,
    repository and owner. *)
Theorem issueCommentCreated_dispatches_first_match (api : Remote) (fuel : nat)
    (plugins : list Plugin) (event : CommentEvent) (w : World) :
  Forall (λ p, plain (command p) = true ∧ command p ≠ "") plugins →
  ∃ handler added,
    issueCommentCreated api fuel (Some plugins) event = Some handler
    ∧ trace (handler w).2 = trace w ++ added
    ∧ filter (λ e, isDispatch e = true) added
      = match List.find (λ p, matchesAtStart (command p) (comment_body event))
                plugins with
        | Some p =>
            [ PostDispatch objectToString (repository_name event)
                (dispatchEventType (name p))
                {| cp_body := comment_body event;
                   cp_issueNumber := issue_number event;
                   cp_sender := sender_login event;
                   cp_repo := repository_name event;
                   cp_org := repository_owner_login event |} ]
        | None => []
        end.
Proof.
  intros Hplugins. unfold issueCommentCreated.
  rewrite commandHandler_plain
    by (eapply Forall_impl; [exact Hplugins|]; by intros p [? _]).
  simpl.
  destruct (List.find _ plugins) as [p|] eqn:Hfind.
  - rewrite decide_False.
    2:{ apply find_some in Hfind as [Hp _]. apply list_elem_of_In in Hp.
        eapply Forall_forall in Hplugins; [|done]. tauto. }
    set (w1 := {| statusReads := statusReads w;
                  trace := ((trace w
                             ++ [Console (LogFetchingConfiguration
                                            (repository_name event))])
                            ++ [Console (LogFoundPlugins (length plugins)
                                           (repository_name event))])
                           ++ [Console (LogFoundHandler (name p))] |}).
    destruct (pluginDispatch_effects api fuel p event w1) as (later & Ht & Hlater).
    assert (filter (λ e, isDispatch e = true) later = []) as Hnone.
    { destruct (inProgressRuns _ _ _ _);
        [by subst|by eapply later_without_dispatch]. }
    eexists.
    exists ([ Console (LogFetchingConfiguration (repository_name event));
              Console (LogFoundPlugins (length plugins) (repository_name event));
              Console (LogFoundHandler (name p)) ]
            ++ dispatchEffects p event ++ later).
    split; [reflexivity|].
    unfold console_log, emit, bind, ret. simpl. fold w1.
    destruct (pluginDispatch api fuel p event w1) as [[out|e|] w2];
      simpl in Ht; simpl; rewrite Ht, <-?(assoc_L (++)); simpl;
      (split; [done|]);
      rewrite !filter_cons; simpl; by rewrite Hnone.
  - eexists. exists [ Console (LogFetchingConfiguration (repository_name event));
                      Console (LogFoundPlugins (length plugins)
                                 (repository_name event)) ].
    split; [reflexivity|]. run_async. by rewrite <-!(assoc_L (++)).
Qed.

Lemma issueCommentCreated_dispatches_first_match_witness :
  ∃ handler added,
    issueCommentCreated helpRemote 9 (Some userCommands) helpComment = Some handler
    ∧ trace (handler initial).2 = added
    ∧ filter (λ e, isDispatch e = true) added
      = [ PostDispatch objectToString "kernel" "help-menu"
            {| cp_body := "/help"; cp_issueNumber := 1; cp_sender := "alice";
               cp_repo := "kernel"; cp_org := "ubiquity" |} ].
Proof.
  destruct (issueCommentCreated_dispatches_first_match helpRemote 9 userCommands
              helpComment initial) as (handler & added & Hh & Ht & Hd).
  - by repeat constructor.
  - exists handler, added. split; [exact Hh|]. split; [exact Ht|]. exact Hd.
Defined.

(** X13. A command with an empty match string is never selected, and it
    hides the commands behind it: for plain match strings, when the first
    command that matches at the start of the comment has the empty match
    string, no handler is selected, whatever the later commands are. *)
Theorem commandHandler_empty_command_hides (body : string) (plugins : list Plugin)
    (p : Plugin) :
  Forall (λ q, plain (command q) = true) plugins →
  List.find (λ q, matchesAtStart (command q) body) plugins = Some p →
  (command p = "" → commandHandler body plugins = Some None)
  ∧ (command p ≠ "" → commandHandler body plugins = Some (Some p))
  ∧ (∀ q, commandHandler body plugins = Some (Some q) → command q ≠ "").
Proof.
  intros Hplain Hfind. rewrite commandHandler_plain, Hfind by done.
  split; [|split].
  - intros Hp. by rewrite decide_True.
  - intros Hp. by rewrite decide_False.
  - intros q. case_decide; [done|]. by intros [= <-].
Qed.

Lemma commandHandler_empty_command_hides_witness :
  commandHandler "help"
    [ {| name := "Empty"; command := ""; description := ""; example := "" |};
      {| name := "Help"; command := "help"; description := ""; example := "" |} ]
  = Some None.
Proof.
  refine (proj1 (commandHandler_empty_command_hides "help"
                   [ {| name := "Empty"; command := ""; description := "";
                        example := "" |};
                     {| name := "Help"; command := "help"; description := "";
                        example := "" |} ]
                   {| name := "Empty"; command := ""; description := "";
                      example := "" |} _ eq_refl) eq_refl).
  by repeat constructor.
Defined.

(** ** The shape of an event type *)

Lemma hyphenate_lower_unit (c : ascii) :
  JS.isWhiteSpace (hyphenate (JS.toLowerCaseUnit c)) = false
  ∧ JS.toLowerCaseUnit (hyphenate (JS.toLowerCaseUnit c))
    = hyphenate (JS.toLowerCaseUnit c)
  ∧ hyphenate (JS.toLowerCaseUnit (hyphenate (JS.toLowerCaseUnit c)))
    = hyphenate (JS.toLowerCaseUnit c).
Proof. destruct c as [[] [] [] [] [] [] [] []]; by vm_compute. Qed.

Lemma dispatchEventType_units (pluginName : string) :
  dispatchEventType pluginName
  = JS.mapUnits (λ c, hyphenate (JS.toLowerCaseUnit c)) pluginName.
Proof.
  unfold dispatchEventType. rewrite replace_whitespace. unfold JS.toLowerCase.
  induction pluginName as [|c s IH]; [done|]. simpl. by rewrite IH.
Qed.

(** X14. An event type holds no white space and no upper-case letter,
    and is its own event type: deriving twice changes nothing. *)
Theorem dispatchEventType_shape (pluginName : string) :
  Forall (λ c, JS.isWhiteSpace c = false ∧ JS.toLowerCaseUnit c = c)
    (list_ascii_of_string (dispatchEventType pluginName))
  ∧ dispatchEventType (dispatchEventType pluginName)
    = dispatchEventType pluginName.
Proof.
  rewrite !dispatchEventType_units.
  induction pluginName as [|c s (IHall & IHidem)]; [done|]. simpl.
  destruct (hyphenate_lower_unit c) as (Hws & Hlow & Hidem).
  split; [by constructor|].
  by rewrite Hidem, IHidem.
Qed.

(** * The text helpers of the help menu *)

Lemma prefix_empty (s : string) : String.prefix "" s = true.
Proof. by destruct s. Qed.

Lemma sliceTo_app (pre rest : string) :
  JSText.sliceTo (pre +:+ rest) (String.length pre) = pre.
Proof. induction pre as [|c pre IH]; simpl; [by destruct rest|by rewrite IH]. Qed.

Lemma sliceFrom_app (pre rest : string) :
  JSText.sliceFrom (pre +:+ rest) (String.length pre) = rest.
Proof. induction pre as [|c pre IH]; simpl; [by destruct rest|done]. Qed.

Lemma length_append (s1 s2 : string) :
  String.length (s1 +:+ s2) = String.length s1 + String.length s2.
Proof. induction s1 as [|c s1 IH]; simpl; [done|by rewrite IH]. Qed.

(** The first occurrence of a code unit from a position on. *)
Lemma indexOfLoop_unit (c : ascii) (s : string) : ∀ skip i k,
  JSText.indexOfLoop (String c "") s skip i = Some k →
  ∃ pre post,
    s = pre +:+ String c post
    ∧ k = i + String.length pre
    ∧ skip ≤ String.length pre
    ∧ JSText.indexOfLoop (String c "") pre skip i = None.
Proof.
  induction s as [|a s IH]; intros skip i k; [done|].
  destruct skip as [|skip]; cbn [JSText.indexOfLoop].
  - cbn [String.prefix]. destruct (ascii_dec c a) as [->|Hne].
    + rewrite prefix_empty. intros [= <-].
      exists "", s. repeat split; simpl; [lia|lia].
    + intros (pre & post & -> & -> & _ & Hnone)%IH.
      exists (String a pre), post. repeat split; simpl; [lia|lia|].
      by destruct (ascii_dec c a).
  - intros (pre & post & -> & -> & Hskip & Hnone)%IH.
    exists (String a pre), post. repeat split; simpl; [lia|lia|done].
Qed.

Lemma join_cons (sep x y : string) (l : list string) :
  JS.join sep (x :: y :: l) = x +:+ sep +:+ JS.join sep (y :: l).
Proof. reflexivity. Qed.

Lemma breakLoop_lines (maxLen : nat) (fuel : nat) : ∀ str acc,
  String.length str ≤ fuel →
  ∃ line lines,
    breakLoop fuel maxLen str acc = Some (acc ++ lines ++ [line])
    ∧ JS.join " " (lines ++ [line]) = str
    ∧ Forall (λ l, JSText.indexOf l " " maxLen = None) (lines ++ [line])
    ∧ Forall (λ l, maxLen ≤ String.length l) lines.
Proof.
  induction fuel as [|fuel IH]; intros str acc Hfuel.
  - unfold breakLoop.
    destruct (JSText.indexOf str " " maxLen) as [i|] eqn:Hi.
    + apply indexOfLoop_unit in Hi as (pre & post & -> & _).
      rewrite length_append in Hfuel. simpl in Hfuel. lia.
    + exists str, []. by repeat constructor.
  - cbn [breakLoop].
    destruct (JSText.indexOf str " " maxLen) as [i|] eqn:Hi;
      [|exists str, []; by repeat constructor].
    apply indexOfLoop_unit in Hi as (pre & post & -> & -> & Hskip & Hnone).
    rewrite length_append in Hfuel |- *. cbn [String.length] in Hfuel |- *.
    rewrite (proj2 (Nat.ltb_lt _ _)) by lia. simpl.
    change (String " " post) with (" " +:+ post).
    rewrite <-append_assoc.
    replace (S (String.length pre)) with (String.length (pre +:+ " "))
      by (rewrite length_append; simpl; lia).
    rewrite sliceFrom_app, append_assoc, sliceTo_app.
    destruct (IH post (acc ++ [pre])) as (line & lines & -> & Hjoin & Hall & Hlong);
      [lia|].
    exists line, (pre :: lines). rewrite <-!(assoc_L (++)). simpl.
    split; [done|]. split; [|split; [by constructor|by constructor]].
    destruct lines; simpl in *; by rewrite Hjoin.
Qed.

(** X15. [breakLongString] always ends, and it only turns spaces into
    line breaks: the lines it joins with "<br>", joined with single
    spaces instead, are the text it was given.  No line holds a space at
    index [maxLen] or later, and every line but the last is at least
    [maxLen] long. *)
Theorem breakLongString_lines (str : string) (maxLen : nat) :
  ∃ line lines,
    brokenLines str maxLen = Some (lines ++ [line])
    ∧ breakLongString str maxLen = Some (JS.join "<br>" (lines ++ [line]))
    ∧ JS.join " " (lines ++ [line]) = str
    ∧ Forall (λ l, JSText.indexOf l " " maxLen = None) (lines ++ [line])
    ∧ Forall (λ l, maxLen ≤ String.length l) lines.
Proof.
  destruct (breakLoop_lines maxLen (String.length str) str [])
    as (line & lines & Hrun & Hjoin & Hall & Hlong); [done|].
  exists line, lines. unfold breakLongString, brokenLines. by rewrite Hrun.
Qed.

(** X16. A text without a space at index [maxLen] or later, in
    particular a text of at most [maxLen] code units, is returned as it
    is. *)
Theorem breakLongString_unbroken (str : string) (maxLen : nat) :
  (String.length str ≤ maxLen → JSText.indexOf str " " maxLen = None)
  ∧ (JSText.indexOf str " " maxLen = None → breakLongString str maxLen = Some str).
Proof.
  split.
  - intros Hshort. destruct (JSText.indexOf str " " maxLen) as [i|] eqn:Hi; [|done].
    apply indexOfLoop_unit in Hi as (pre & post & -> & _ & Hskip & _).
    rewrite length_append in Hshort. simpl in Hshort. lia.
  - intros Hnone. unfold breakLongString, brokenLines.
    destruct (String.length str); simpl; by rewrite Hnone.
Qed.

Lemma breakLongString_unbroken_witness :
  breakLongString "/help" 24 = Some "/help".
Proof.
  destruct (breakLongString_unbroken "/help" 24) as [Hshort Hsame].
  apply Hsame, Hshort. simpl. lia.
Defined.

Lemma append_nil_r (s : string) : s +:+ "" = s.
Proof. induction s as [|c s IH]; [done|]. by rewrite append_cons, IH. Qed.

Lemma sliceTo_sliceFrom (s : string) : ∀ n,
  JSText.sliceTo s n +:+ JSText.sliceFrom s n = s.
Proof.
  induction s as [|c s IH]; intros [|n]; try done.
  simpl. by rewrite append_cons, IH.
Qed.

Lemma length_sliceFrom (s : string) : ∀ n,
  String.length (JSText.sliceFrom s n) = String.length s - n.
Proof. induction s as [|c s IH]; intros [|n]; simpl; try done. Qed.

Lemma prefix_sliceFrom (sep : string) : ∀ s,
  String.prefix sep s = true →
  s = sep +:+ JSText.sliceFrom s (String.length sep).
Proof.
  induction sep as [|a sep IH]; intros s Hs; [by destruct s|].
  destruct s as [|c s]; [done|]. simpl in Hs.
  destruct (ascii_dec a c) as [->|]; [|done].
  rewrite append_cons. simpl. by rewrite <-IH.
Qed.

Lemma splitLoop_skip (sep : string) (k : nat) : ∀ cur s,
  k ≤ String.length s →
  JSText.splitLoop sep k cur s = JSText.splitLoop sep 0 cur (JSText.sliceFrom s k).
Proof.
  induction k as [|k IH]; intros cur s Hk; [by destruct s|].
  destruct s as [|c s]; simpl in Hk; [lia|].
  simpl. apply IH. lia.
Qed.

Lemma splitLoop_nonempty (sep : string) (s : string) : ∀ skip cur,
  ∃ x l, JSText.splitLoop sep skip cur s = x :: l.
Proof.
  induction s as [|c s IH]; intros skip cur; [by eexists _, _|].
  cbn [JSText.splitLoop]. destruct skip; [|apply IH].
  destruct (String.prefix sep _); [by eexists _, _|apply IH].
Qed.

(** Splitting and joining again gives the text back. *)
Lemma join_splitLoop (sep : string) (n : nat) : ∀ s cur,
  sep ≠ "" →
  String.length s ≤ n →
  JS.join sep (JSText.splitLoop sep 0 cur s) = cur +:+ s.
Proof.
  induction n as [|n IH]; intros s cur Hsep Hn.
  { destruct s; simpl in Hn; [|lia]. simpl. by rewrite append_nil_r. }
  destruct s as [|c s]; [simpl; by rewrite append_nil_r|].
  cbn [JSText.splitLoop].
  destruct (String.prefix sep (String c s)) eqn:Hprefix.
  - pose proof (prefix_sliceFrom _ _ Hprefix) as Hs.
    destruct sep as [|a sep]; [done|].
    cbn [String.length] in Hs |- *.
    replace (S (String.length sep) - 1) with (String.length sep) by lia.
    rewrite append_cons in Hs. cbn [JSText.sliceFrom] in Hs.
    injection Hs as <- Hs.
    assert (String.length sep ≤ String.length s) as Hlen.
    { pose proof (f_equal String.length Hs) as Hl.
      rewrite length_append in Hl. lia. }
    rewrite splitLoop_skip by done.
    destruct (splitLoop_nonempty (String c sep)
                (JSText.sliceFrom s (String.length sep)) 0 "") as (x & l & Hx).
    rewrite Hx, join_cons, <-Hx.
    rewrite IH; [|done|rewrite length_sliceFrom; simpl in Hn; lia].
    change ("" +:+ JSText.sliceFrom s (String.length sep))
      with (JSText.sliceFrom s (String.length sep)).
    by rewrite append_cons, <-Hs.
  - rewrite IH by (simpl in Hn; done || lia).
    by rewrite append_assoc.
Qed.

Lemma endsWith_dropLast (s suffix : string) :
  String.length suffix = 1 →
  JSText.endsWith s suffix = true →
  s = JSText.dropLast s +:+ suffix.
Proof.
  unfold JSText.endsWith, JSText.dropLast. intros Hlen Hends.
  apply andb_prop in Hends as [_ Hends]. apply String.eqb_eq in Hends.
  rewrite Hlen in Hends. rewrite <-Hends.
  by rewrite sliceTo_sliceFrom.
Qed.

(** X17. [breakSentences] splits at ". " only: its sentences, joined
    with ". " again, are the text without its final period, if it has
    one.  A text in which ". " does not occur is returned as it is, with
    its final period. *)
Theorem breakSentences_sentences (str : string) :
  JS.join ". " (sentencesOf str)
    = (if JSText.endsWith str "." then JSText.dropLast str else str)
  ∧ ((∀ pre post, str ≠ pre +:+ ". " +:+ post) → breakSentences str = str).
Proof.
  assert (JS.join ". " (sentencesOf str)
          = (if JSText.endsWith str "." then JSText.dropLast str else str)) as Hjoin.
  { unfold sentencesOf. destruct (JSText.endsWith str "."); simpl;
      by rewrite (join_splitLoop ". " _ _ "" ltac:(done) (Nat.le_refl _)). }
  split; [done|]. intros Hnone. unfold breakSentences.
  destruct (sentencesOf str) as [|x [|y l]]; [done..|].
  rewrite join_cons in Hjoin. exfalso.
  destruct (JSText.endsWith str ".") eqn:Hends.
  - apply (endsWith_dropLast str "." eq_refl) in Hends.
    apply (Hnone x (JS.join ". " (y :: l) +:+ ".")).
    rewrite Hends at 1. by rewrite <-Hjoin, !append_assoc.
  - by apply (Hnone x (JS.join ". " (y :: l))).
Qed.

Lemma prefix_append (search post : string) :
  String.prefix search (search +:+ post) = true.
Proof.
  induction search as [|c search IH]; [apply prefix_empty|].
  rewrite append_cons. simpl. by destruct (ascii_dec c c).
Qed.

Lemma includes_occurrence (pre search post : string) :
  JSText.includes (pre +:+ search +:+ post) search = true.
Proof.
  unfold JSText.includes, JSText.indexOf.
  enough (∀ i, is_Some (JSText.indexOfLoop search (pre +:+ search +:+ post) 0 i))
    as Hfound by by destruct (Hfound 0) as [k ->].
  induction pre as [|c pre IH]; intros i.
  - change ("" +:+ search +:+ post) with (search +:+ post).
    pose proof (prefix_append search post) as Hp.
    destruct (search +:+ post) as [|a s] eqn:Hs;
      cbn [JSText.indexOfLoop]; by rewrite Hp.
  - rewrite append_cons. cbn [JSText.indexOfLoop].
    destruct (String.prefix _ _); [done|]. apply IH.
Qed.

Lemma breakSentences_sentences_witness :
  breakSentences (description helpMenu) = description helpMenu.
Proof.
  apply (proj2 (breakSentences_sentences (description helpMenu))).
  intros pre post Heq.
  pose proof (includes_occurrence pre ". " post) as Hin.
  rewrite <-Heq in Hin. discriminate Hin.
Defined.

(** * The table of webhook event names *)

Section ReplaceUnit.

Variables (input : list ascii) (r : RegExp.Regex) (test : ascii → bool).
Variable x : ascii.

Hypothesis r_unit : ∀ i,
  RegExp.m r input i Some
  = match input !! i with
    | Some c => if test c then Some (S i) else None
    | None => None
    end.

Lemma replaceLoop_unit d : ∀ fuel i n acc,
  length input - i = d → n ≤ i → i ≤ length input → d < fuel →
  RegExp.replaceLoop fuel r input [x] i n acc
  = acc ++ take (i - n) (drop n input)
        ++ map (λ c, if test c then x else c) (drop i input).
Proof.
  induction d as [|d IH]; intros fuel i n acc Hd Hn Hi Hfuel.
  - assert (i = length input) as -> by lia.
    destruct fuel as [|fuel]; [lia|]. simpl.
    rewrite execFrom_end.
    + rewrite drop_all. simpl. rewrite (right_id_L [] (++)).
      by rewrite take_ge by (rewrite length_drop; lia).
    + rewrite r_unit. by rewrite (proj2 (lookup_ge_None _ _)).
  - destruct (input !! i) as [c|] eqn:Hc;
      [|apply lookup_ge_None in Hc; lia].
    rewrite (drop_S _ _ _ Hc). simpl.
    destruct (test c) eqn:Htest.
    + destruct fuel as [|fuel]; [lia|].
      rewrite (replaceLoop_hit _ _ _ _ _ _ _ (S i));
        [|done|done|by rewrite r_unit, Hc, Htest|lia].
      rewrite IH by lia.
      rewrite Nat.sub_diag, take_0. simpl.
      by rewrite <-!(assoc_L (++)).
    + rewrite replaceLoop_skip;
        [|by apply lookup_lt_Some in Hc|by rewrite r_unit, Hc, Htest].
      rewrite IH by lia.
      replace (S i - n) with (S (i - n)) by lia.
      rewrite (take_S_r _ _ c).
      * by rewrite <-!(assoc_L (++)).
      * rewrite lookup_drop. by replace (n + (i - n)) with i by lia.
Qed.

End ReplaceUnit.

Lemma replace_dot (s : string) :
  RegExp.replace s dot "_" = JS.mapUnits underscore s.
Proof.
  unfold RegExp.replace.
  rewrite (replaceLoop_unit _ dot (Ascii.eqb ".") "_"%char)
    with (d := length (list_ascii_of_string s)); [| |simpl; lia..].
  - simpl. rewrite drop_0. apply mapUnits_list.
  - intros i. reflexivity.
Qed.

Lemma toUpperCaseUnit_shape (c u : ascii) :
  JSText.toUpperCaseUnit (underscore c) = Some u →
  u ≠ "."%char ∧ JS.between 97 122 u = false.
Proof.
  assert (match JSText.toUpperCaseUnit (underscore c) with
          | Some u => negb (Ascii.eqb u ".") && negb (JS.between 97 122 u)
          | None => true
          end = true) as Hshape.
  { destruct c as [[] [] [] [] [] [] [] []]; vm_compute; reflexivity. }
  intros Hu. rewrite Hu in Hshape. apply andb_prop in Hshape as [Hdot Hlow].
  apply negb_true_iff in Hdot, Hlow. split; [by apply Ascii.eqb_neq|done].
Qed.

Lemma toUpperCaseUnit_ascii (c : ascii) :
  (JS.codeUnit c <? 128)%N = true →
  is_Some (JSText.toUpperCaseUnit (underscore c)).
Proof.
  destruct c as [[] [] [] [] [] [] [] []]; vm_compute;
    intros H; try discriminate H; by eexists.
Qed.

(** X18. The key of an event name has the name's length and holds no dot
    and no letter a-z; every name of code units below U+0080 has a key. *)
Theorem eventKey_shape (cur : string) :
  (Forall (λ c, (JS.codeUnit c <? 128)%N = true) (list_ascii_of_string cur) →
   is_Some (eventKey cur))
  ∧ (∀ key, eventKey cur = Some key →
       String.length key = String.length cur
       ∧ Forall (λ c, c ≠ "."%char ∧ JS.between 97 122 c = false)
           (list_ascii_of_string key)).
Proof.
  unfold eventKey. rewrite replace_dot. split.
  - induction cur as [|c cur IH]; intros Hascii; [by eexists|].
    inversion Hascii as [|? ? Hc Hcur]; subst. simpl.
    destruct (toUpperCaseUnit_ascii c Hc) as [u ->].
    destruct (IH Hcur) as [key ->]. by eexists.
  - induction cur as [|c cur IH]; intros key; simpl.
    + by intros [= <-].
    + destruct (JSText.toUpperCaseUnit (underscore c)) as [u|] eqn:Hu; [|done].
      destruct (JSText.toUpperCase _) as [key'|]; [|done]. simpl.
      intros [= <-]. destruct (IH key' eq_refl) as [Hlen Hall]. simpl.
      split; [by rewrite Hlen|]. constructor; [|done].
      by eapply toUpperCaseUnit_shape.
Qed.

Lemma eventKey_shape_witness :
  is_Some (eventKey "issue_comment.created").
Proof.
  apply (proj1 (eventKey_shape "issue_comment.created")).
  by repeat constructor.
Defined.

Lemma githubWebhookEvents_snoc (names : list string) (cur : string) :
  githubWebhookEvents (names ++ [cur])
  = acc ← githubWebhookEvents names;
    upper ← eventKey cur;
    Some (<[upper := cur]> acc).
Proof. unfold githubWebhookEvents. by rewrite fold_left_app. Qed.

(** X19. In the table built from a list of event names, every entry
    binds the key of an event name of the list to that name; every name
    of the list finds under its key a name of the list with the same
    key, the name itself when no other name of the list has that key;
    the last name of the list is always found under its key. *)
Theorem githubWebhookEvents_entries (names : list string)
    (table : gmap string string) :
  githubWebhookEvents names = Some table →
  (∀ key name, table !! key = Some name →
     name ∈ names ∧ eventKey name = Some key)
  ∧ (∀ name, name ∈ names →
       ∃ key found, eventKey name = Some key ∧ table !! key = Some found)
  ∧ (∀ name key, name ∈ names → eventKey name = Some key →
       (∀ other, other ∈ names → eventKey other = Some key → other = name) →
       table !! key = Some name)
  ∧ (∀ before name key, names = before ++ [name] → eventKey name = Some key →
       table !! key = Some name).
Proof.
  intros Htable.
  assert ((∀ key name, table !! key = Some name →
             name ∈ names ∧ eventKey name = Some key)
          ∧ (∀ name, name ∈ names →
               ∃ key found, eventKey name = Some key
                            ∧ table !! key = Some found)) as [Hsound Hcomplete].
  { revert table Htable.
    induction names as [|cur names IH] using rev_ind; intros table.
    - intros [= <-]. split; [by intros key name|]. by intros name ?%elem_of_nil.
    - rewrite githubWebhookEvents_snoc.
      destruct (githubWebhookEvents names) as [acc|]; [|done]. simpl.
      destruct (eventKey cur) as [upper|] eqn:Hupper; [|done]. simpl.
      intros [= <-]. destruct (IH acc eq_refl) as [Hsound Hcomplete]. split.
      + intros key name. rewrite lookup_insert. case_decide as Hkey.
        * intros [= <-]. subst key. split; [|done].
          apply elem_of_app. right. by apply list_elem_of_singleton.
        * intros [Hname ?]%Hsound. split; [|done].
          apply elem_of_app. by left.
      + intros name [Hname| ->%list_elem_of_singleton]%elem_of_app.
        * destruct (Hcomplete name Hname) as (key & found & Hkey & Hfound).
          exists key. rewrite lookup_insert. case_decide; by eauto.
        * exists upper, cur. by rewrite lookup_insert_eq. }
  split; [done|]. split; [done|]. split.
  - intros name key Hname Hkey Hunique.
    destruct (Hcomplete name Hname) as (key' & found & Hkey' & Hfound).
    assert (key' = key) as -> by congruence.
    apply Hsound in Hfound as Hf. destruct Hf as [Hin Hk].
    by rewrite Hfound, (Hunique found Hin Hk).
  - intros before name key -> Hkey.
    rewrite githubWebhookEvents_snoc in Htable.
    destruct (githubWebhookEvents before) as [acc|]; [|done]. simpl in Htable.
    rewrite Hkey in Htable. simpl in Htable. injection Htable as <-.
    apply lookup_insert_eq.
Qed.

Lemma githubWebhookEvents_entries_witness :
  ∃ table,
    githubWebhookEvents [ "issues.opened"; "issue_comment.created" ] = Some table
    ∧ table !! "ISSUE_COMMENT_CREATED" = Some "issue_comment.created".
Proof.
  destruct (githubWebhookEvents [ "issues.opened"; "issue_comment.created" ])
    as [table|] eqn:Htable.
  - exists table. split; [done|].
    apply (proj2 (proj2 (proj2 (githubWebhookEvents_entries _ _ Htable)))
             [ "issues.opened" ] "issue_comment.created"
             "ISSUE_COMMENT_CREATED" eq_refl).
    reflexivity.
  - exfalso. vm_compute in Htable. discriminate Htable.
Defined.

(** * The name of the worker *)

Lemma splitLoop_without (c : ascii) (sep' : string) (a : string) : ∀ cur s,
  without c a = true →
  JSText.splitLoop (String c sep') 0 cur (a +:+ s)
  = JSText.splitLoop (String c sep') 0 (cur +:+ a) s.
Proof.
  induction a as [|x a IH]; intros cur s Ha.
  - by rewrite append_nil_r.
  - simpl in Ha. apply andb_prop in Ha as [Hx Ha].
    apply negb_true_iff, Ascii.eqb_neq in Hx.
    rewrite append_cons. cbn [JSText.splitLoop String.prefix].
    destruct (ascii_dec c x) as [|_]; [done|].
    rewrite IH by done. by rewrite append_assoc.
Qed.

Lemma splitLoop_head (sep : string) (s : string) : ∀ skip cur,
  ∃ r l, JSText.splitLoop sep skip cur s = (cur +:+ r) :: l.
Proof.
  induction s as [|c s IH]; intros skip cur.
  - exists "", []. simpl. by rewrite append_nil_r.
  - cbn [JSText.splitLoop]. destruct skip; [|apply IH].
    destruct (String.prefix sep _).
    + eexists "", _. by rewrite append_nil_r.
    + destruct (IH 0 (cur +:+ String c "")) as (r & l & ->).
      exists (String c r), l. by rewrite append_assoc.
Qed.

(** X20. For an origin of the form scheme "//" label "." rest that does
    not contain "localhost", where the scheme holds no slash and the
    label neither a slash nor a dot, the worker is named by the label:
    the first part of the host name. *)
Theorem workerName_first_label (scheme label rest : string) :
  JSText.includes (scheme +:+ "//" +:+ label +:+ "." +:+ rest) "localhost" = false →
  without "/" scheme = true →
  without "/" label = true →
  without "." label = true →
  workerName (scheme +:+ "//" +:+ label +:+ "." +:+ rest) = Returned label.
Proof.
  intros Hlocal Hscheme Hslash Hdot. unfold workerName. rewrite Hlocal.
  unfold JSText.split at 1.
  rewrite (splitLoop_without "/" "/" scheme "") by done.
  change ("//" +:+ label +:+ "." +:+ rest)
    with (String "/" (String "/" (label +:+ "." +:+ rest))).
  cbn [JSText.splitLoop String.prefix]. rewrite prefix_empty.
  destruct (ascii_dec "/" "/") as [_|]; [|done].
  cbn [String.length Nat.sub JSText.splitLoop lookup list_lookup].
  rewrite (splitLoop_without "/" "/" label "") by done.
  change ("." +:+ rest) with (String "." rest).
  cbn [JSText.splitLoop String.prefix].
  destruct (ascii_dec "/" ".") as [|_]; [done|].
  destruct (splitLoop_head "//" rest 0 (("" +:+ label) +:+ ".")) as (r & l & ->).
  cbn [lookup list_lookup]. unfold JSText.split.
  change (("" +:+ label) +:+ ".") with (label +:+ ".").
  rewrite append_assoc.
  rewrite (splitLoop_without "." "" label "") by done.
  change ("." +:+ r) with (String "." r).
  cbn [JSText.splitLoop String.prefix]. rewrite prefix_empty.
  by destruct (ascii_dec "." ".").
Qed.

Lemma workerName_first_label_witness :
  workerName "https://command-wallet.ubiquity.workers.dev" = Returned "command-wallet".
Proof.
  apply (workerName_first_label "https:" "command-wallet" "ubiquity.workers.dev");
    reflexivity.
Defined.

(** X21. An origin that contains "localhost" anywhere names the worker
    "localhost"; an origin without it and without a slash makes the
    derivation throw a TypeError. *)
Theorem workerName_localhost_or_throws (workerUrl : string) :
  (∀ pre post, workerUrl = pre +:+ "localhost" +:+ post →
     workerName workerUrl = Returned "localhost")
  ∧ (JSText.includes workerUrl "localhost" = false →
     without "/" workerUrl = true →
     workerName workerUrl
     = Thrown (TypeError "Cannot read properties of undefined (reading 'split')")).
Proof.
  unfold workerName. split.
  - intros pre post ->. by rewrite includes_occurrence.
  - intros -> Hslash. unfold JSText.split.
    rewrite <-(append_nil_r workerUrl) at 1.
    by rewrite (splitLoop_without "/" "/" workerUrl "" "").
Qed.

Lemma workerName_localhost_or_throws_witness :
  workerName "https://my-localhost-proxy.example.com" = Returned "localhost"
  ∧ workerName "null"
    = Thrown (TypeError "Cannot read properties of undefined (reading 'split')").
Proof.
  split.
  - apply (proj1 (workerName_localhost_or_throws _) "https://my-" "-proxy.example.com").
    reflexivity.
  - apply (proj2 (workerName_localhost_or_throws "null")); reflexivity.
Defined.
